(** * Mini_codes: the Hull-White lattice pricer and the Monte Carlo pricer

    A shallow embedding of
      - [src/Hull_and_white_rate_options_pricer.py]
        ([build_rate_tree], [price_option]) and
      - [src/montecarlo_pricer_v1.py] ([paths_anti], [paths_con]),
    followed by the properties of the two pricing cores.

    Number model.  Python and numpy floats are embedded as the real numbers
    [R] of the Standard Library: [np.exp] is [exp], [np.sqrt] is [sqrt],
    [max] and [np.maximum] are [Rmax].  Rounding, overflow and nan are not
    part of the model.  Two places where numpy answers nan or inf with a
    warning instead of raising are total in the model: [sqrt] of a negative
    number is [0], and a numpy division by zero is the division of [R]
    (whose value at zero is [0]).  A division of Python floats by zero raises
    [ZeroDivisionError], and is modelled as such.

    Integers stay integers ([Z]); Python lists and numpy arrays are lists,
    read and written by index, with the exceptions Python raises out of
    range. *)

From Stdlib Require Import Reals Lra Lia ZArith String.
From stdpp Require Import base list.

Open Scope R_scope.

(** ** Python and numpy basics *)

Module Py.

Inductive exception := ZeroDivisionError | ValueError | IndexError.

Inductive result (A : Type) :=
| Ok (a : A)
| Raise (e : exception).
Arguments Ok {A} a.
Arguments Raise {A} e.

Definition bind {A B} (c : result A) (k : A -> result B) : result B :=
  match c with
  | Ok a => k a
  | Raise e => Raise e
  end.

Notation "'do' x <- c ;; k" := (bind c (fun x => k))
  (at level 10, x name, c at level 99, k at level 200).
Notation "'do' ' pat <- c ;; k" := (bind c (fun x => match x with pat => k end))
  (at level 10, pat pattern, c at level 99, k at level 200).

(** [for x in xs: s = body(x, s)] *)
Fixpoint for_each {A S : Type} (xs : list A) (body : A -> S -> result S) (s : S)
  : result S :=
  match xs with
  | [] => Ok s
  | x :: xs' => do s' <- body x s ;; for_each xs' body s'
  end.

(** [range(n)]: empty when [n <= 0]. *)
Definition range (n : Z) : list Z := map Z.of_nat (seq 0 (Z.to_nat n)).

(** [range(n - 1, -1, -1)]: [n-1, ..., 0]. *)
Definition range_down (n : Z) : list Z := rev (range n).

(** [x / n] for a Python float [x] and a Python int [n]. *)
Definition truediv (x : R) (n : Z) : result R :=
  if (n =? 0)%Z then Raise ZeroDivisionError else Ok (x / IZR n).

(** Index normalisation of Python sequences and numpy axes: a negative
    index counts from the end; anything outside [-len, len) raises. *)
Definition index (len : nat) (k : Z) : result nat :=
  if (0 <=? k)%Z && (k <? Z.of_nat len)%Z then Ok (Z.to_nat k)
  else if (k <? 0)%Z && (- Z.of_nat len <=? k)%Z then Ok (Z.to_nat (Z.of_nat len + k))
  else Raise IndexError.

Definition getitem {A} (l : list A) (k : Z) : result A :=
  do k' <- index (length l) k ;;
  match l !! k' with
  | Some v => Ok v
  | None => Raise IndexError
  end.

Definition setitem {A} (l : list A) (k : Z) (v : A) : result (list A) :=
  do k' <- index (length l) k ;;
  Ok (<[k' := v]> l).

Abbreviation matrix := (list (list R)).

(** [m[i][j]] and [m[i, j]] *)
Definition getitem2 (m : matrix) (i j : Z) : result R :=
  do row <- getitem m i ;; getitem row j.

(** [m[i][j] = v] and [m[i, j] = v] (in place: the row is a view) *)
Definition setitem2 (m : matrix) (i j : Z) (v : R) : result matrix :=
  do row <- getitem m i ;;
  do row' <- setitem row j v ;;
  setitem m i row'.

(** [np.zeros((rows, cols))] *)
Definition np_zeros (rows cols : Z) : result matrix :=
  if (rows <? 0)%Z || (cols <? 0)%Z then Raise ValueError
  else Ok (replicate (Z.to_nat rows) (replicate (Z.to_nat cols) 0)).

(** [m[i, :] = v] *)
Definition fill_row (m : matrix) (i : Z) (v : R) : result matrix :=
  do row <- getitem m i ;;
  setitem m i (replicate (length row) v).

Definition Rleb (x y : R) : bool := if Rle_dec x y then true else false.
Definition Rgeb (x y : R) : bool := if Rge_dec x y then true else false.

Definition np_sum (xs : list R) : R := foldr Rplus 0 xs.

(** [np.mean(xs)]; numpy answers nan on an empty array. *)
Definition np_mean (xs : list R) : R := np_sum xs / INR (length xs).

(** Views of a matrix used to state properties: its dimensions, and the
    entry at row [i] and column [j] when there is one. *)
Definition shape (m : matrix) (rows cols : nat) : Prop :=
  length m = rows /\ Forall (fun row => length row = cols) m.

Definition cell (m : matrix) (i j : nat) : option R :=
  match m !! i with
  | Some row => row !! j
  | None => None
  end.

(** The matrix after [m[i, j] = v], for indices in range. *)
Definition update (m : matrix) (i j : nat) (v : R) : matrix :=
  match m !! i with
  | Some row => <[i := <[j := v]> row]> m
  | None => m
  end.

(** [m'] is [m] after a write of [v] at [(i, j)]: same dimensions, [v] at
    [(i, j)], every other entry as before. *)
Definition written (m m' : matrix) (rows cols i j : nat) (v : R) : Prop :=
  shape m' rows cols /\ cell m' i j = Some v /\
  forall i' j', i <> i' \/ j <> j' -> cell m' i' j' = cell m i' j'.

End Py.

(** ** The lattice pricer *)

Module HullWhite.
Import Py.

(** [build_rate_tree(r0, a, sigma, T, N)] *)
Definition build_rate_tree (r0 a sigma T : R) (N : Z)
  : result (list (list R) * R * R) :=
  do dt <- truediv T N ;;
  let dx := sigma * sqrt dt in
  do tree <- for_each (range (N + 1)) (fun i tree =>
            do level <- for_each (range (i + 1)) (fun j level =>
                       let rate := r0 + IZR (2 * j - i) * dx in
                       Ok (level ++ [rate])) [] ;;
            Ok (tree ++ [level])) [] ;;
  Ok (tree, dt, dx).

(** [x in [s1, s2]] on strings *)
Definition str_in (x : string) (l : list string) : bool :=
  existsb (String.eqb x) l.

(** The barrier block of [price_option], which the source has twice (after
    the terminal payoff and after each interior node):
<<
    if is_barrier and barrier_type is not None:
        if barrier_type in ["Down In", "Up In"]:
            if not (r <= barrier if barrier_type=="Down In" else r >= barrier):
                option_values[i][j] = 0
        elif barrier_type in ["Down Out", "Up Out"]:
            if (r <= barrier if barrier_type=="Down Out" else r >= barrier):
                option_values[i][j] = 0
>> *)
Definition barrier_block (is_barrier : bool) (barrier_type : option string)
    (barrier r : R) (option_values : matrix) (i j : Z) : result matrix :=
  match is_barrier, barrier_type with
  | true, Some bt =>
      if str_in bt ["Down In"; "Up In"]%string then
        if negb (if String.eqb bt "Down In" then Rleb r barrier else Rgeb r barrier)
        then setitem2 option_values i j 0
        else Ok option_values
      else if str_in bt ["Down Out"; "Up Out"]%string then
        if (if String.eqb bt "Down Out" then Rleb r barrier else Rgeb r barrier)
        then setitem2 option_values i j 0
        else Ok option_values
      else Ok option_values
  | _, _ => Ok option_values
  end.

(** [price_option(r0, a, sigma, T, N, option_type, strike, barrier_type,
                  barrier, is_barrier, is_bermudan, is_call)] *)
Definition price_option (r0 a sigma T : R) (N : Z) (option_type : string)
    (strike : R) (barrier_type : option string) (barrier : R)
    (is_barrier is_bermudan is_call : bool) : result R :=
  do '(tree, dt, dx) <- build_rate_tree r0 a sigma T N ;;
  do option_values <- np_zeros (N + 1) (N + 1) ;;
  (* Terminal payoff. *)
  do option_values <- for_each (range (N + 1)) (fun j option_values =>
      do r <- getitem2 tree N j ;;
      let intrinsic := if is_call then r - strike else strike - r in
      do option_values <- setitem2 option_values N j (Rmax intrinsic 0) ;;
      barrier_block is_barrier barrier_type barrier r option_values N j)
    option_values ;;
  let p := 0.5 in
  do option_values <- for_each (range_down N) (fun i option_values =>
      for_each (range (i + 1)) (fun j option_values =>
          do r <- getitem2 tree i j ;;
          let disc := exp (- r * dt) in
          do up <- getitem2 option_values (i + 1) (j + 1) ;;
          do down <- getitem2 option_values (i + 1) j ;;
          let continuation := disc * (p * up + (1 - p) * down) in
          do option_values <-
            (if is_bermudan then
               do r' <- getitem2 tree i j ;;
               let intrinsic := if is_call then r' - strike else strike - r' in
               let intrinsic := Rmax intrinsic 0 in
               setitem2 option_values i j (Rmax continuation intrinsic)
             else setitem2 option_values i j continuation) ;;
          barrier_block is_barrier barrier_type barrier r option_values i j)
        option_values)
    option_values ;;
  getitem2 option_values 0 0.

(** *** The lattice and its values, as functions of the node

    [rate] is the short rate the builder stores at node [(i, j)], [lattice]
    the list of levels it returns.  [lattice_value k i j] is the value that
    backward induction assigns to node [(i, j)] when [k] steps are left to
    maturity; [price_option] is shown below to compute [lattice_value N 0 0]
    through its array of option values. *)

Definition rate (r0 dx : R) (i j : nat) : R :=
  r0 + IZR (2 * Z.of_nat j - Z.of_nat i) * dx.

Definition lattice (r0 dx : R) (N : Z) : list (list R) :=
  map (fun i => map (fun j => rate r0 dx i j) (seq 0 (S i)))
      (seq 0 (Z.to_nat (N + 1))).

(** What the barrier block leaves at a node of rate [r] holding [v]. *)
Definition knock (is_barrier : bool) (barrier_type : option string)
    (barrier r v : R) : R :=
  match is_barrier, barrier_type with
  | true, Some bt =>
      if str_in bt ["Down In"; "Up In"]%string then
        if negb (if String.eqb bt "Down In" then Rleb r barrier else Rgeb r barrier)
        then 0 else v
      else if str_in bt ["Down Out"; "Up Out"]%string then
        if (if String.eqb bt "Down Out" then Rleb r barrier else Rgeb r barrier)
        then 0 else v
      else v
  | _, _ => v
  end.

Definition intrinsic_value (is_call : bool) (strike r : R) : R :=
  Rmax (if is_call then r - strike else strike - r) 0.

Definition continuation_value (dt r up down : R) : R :=
  exp (- r * dt) * (0.5 * up + (1 - 0.5) * down).

Section LatticeValue.
Variables (r0 dx dt strike barrier : R) (barrier_type : option string).
Variables (is_barrier is_bermudan is_call : bool).

Definition node_value (r up down : R) : R :=
  knock is_barrier barrier_type barrier r
    (if is_bermudan
     then Rmax (continuation_value dt r up down) (intrinsic_value is_call strike r)
     else continuation_value dt r up down).

Fixpoint lattice_value (k i j : nat) : R :=
  match k with
  | O => knock is_barrier barrier_type barrier (rate r0 dx i j)
           (intrinsic_value is_call strike (rate r0 dx i j))
  | S k' => node_value (rate r0 dx i j)
              (lattice_value k' (S i) (S j)) (lattice_value k' (S i) j)
  end.
End LatticeValue.

(** *** The market rate provider

    [get_rate_data(underlying)].  The data feed is outside the program:
    [feed] stands for what [web.DataReader("USDONTD156N", "fred", start, end)]
    gives, an exception or a frame; a frame is the list of its rows, each
    the date of the index (as [strftime('%Y-%m-%d')] prints it) and the
    value.  [data.iloc[-1, 0]] and [data.index[-1]] read the last row and
    raise on an empty frame; the [except] clause catches every exception of
    the [try] block. *)
Definition get_rate_data (feed : result (list (string * R))) (underlying : string)
  : result (R * string) :=
  if String.eqb underlying "US LIBOR" then
    match (do data <- feed ;;
           do last_row <- getitem data (-1) ;;
           let current_rate := snd last_row / 100 in
           let disclaimer := String.append "Data as of " (fst last_row) in
           Ok (current_rate, disclaimer)) with
    | Ok res => Ok res
    | Raise _ => Ok (0.025, "Data retrieval failed, using default rate"%string)
    end
  else if String.eqb underlying "IOS curve" then
    Ok (0.03, "Using dummy IOS curve rate"%string)
  else Ok (0.025, "Default rate used"%string).

End HullWhite.

(** ** The Monte Carlo pricer *)

Module MonteCarlo.
Import Py.

(** The strike is a module-level constant of the script: [K = 110]. *)
Definition K : R := 110.

(** [np.random.normal()] reads the next draw of a tape of standard normals
    and advances the generator. *)
Record rng := { tape : nat -> R; pos : nat }.

Definition normal (g : rng) : R * rng :=
  (tape g (pos g), {| tape := tape g; pos := S (pos g) |}).

(** The indices the path loop of [paths_anti] runs over:
    [range(Nsim+1//2)].  As in Python, the quotient binds tighter than the
    sum. *)
Definition anti_indices (Nsim : Z) : list Z := range (Nsim + 1 / 2)%Z.

(** [np.maximum(option*(row-K), 0)] *)
Definition payoff_row (option : R) (row : list R) : list R :=
  map (fun v => Rmax (option * (v - K)) 0) row.

(** [paths_anti(option, S, r, sigma, T, Nsteps, Nsim)] *)
Definition paths_anti (option S r sigma T : R) (Nsteps Nsim : Z) (g : rng)
  : result (matrix * R * rng) :=
  do dt <- truediv T Nsteps ;;
  do paths <- np_zeros (Nsteps + 1) Nsim ;;
  do paths <- fill_row paths 0 S ;;
  do '(paths, g) <- for_each (anti_indices Nsim) (fun j '(paths, g) =>
      for_each (range Nsteps) (fun i '(paths, g) =>
          let '(random, g) := normal g in
          do x <- getitem2 paths i j ;;
          do paths <- setitem2 paths (i + 1) j
            (x * exp (dt * (r - 0.5 * sigma ^ 2) + sigma * sqrt dt * random)) ;;
          do y <- getitem2 paths i (- j) ;;
          do paths <- setitem2 paths (i + 1) (- j)
            (y * exp (dt * (r - 0.5 * sigma ^ 2) - sigma * sqrt dt * random)) ;;
          Ok (paths, g))
        (paths, g))
    (paths, g) ;;
  do last <- getitem paths (-1) ;;
  let payoffs := payoff_row option last in
  let mean := exp (- r * T) * np_mean payoffs in
  Ok (paths, mean, g).

(** [np.dot] of two vectors *)
Definition np_dot (a b : list R) : R := np_sum (zip_with Rmult a b).

(** [np.cov(m, y)] with the defaults [rowvar=True], [ddof=1]: the rows of
    [m] and then [y] are the variables, the columns the observations.  The
    row means are subtracted, and the matrix of dot products is scaled by
    [1 / fact], [fact] being the number of observations minus one (set to [0]
    with a warning when that is not positive).  An array with no rows gives
    the empty matrix; rows of the wrong length make the concatenation raise. *)
Definition np_cov (m : matrix) (y : list R) : result matrix :=
  match m with
  | [] => Ok []
  | row0 :: _ =>
      if forallb (fun row => Nat.eqb (length row) (length y)) m then
        let X := m ++ [y] in
        let X := map (fun row => map (fun v => v - np_mean row) row) X in
        let fact := (Z.of_nat (length row0) - 1)%Z in
        let fact := if (fact <=? 0)%Z then 0 else IZR fact in
        Ok (map (fun a => map (fun b => np_dot a b * (1 / fact)) X) X)
      else Raise ValueError
  end.

(** One multiplicative step of geometric Brownian motion,
    [x * np.exp(dt*(r-0.5*sigma**2) + sigma*np.sqrt(dt)*random)]. *)
Definition gbm_step (dt r sigma x random : R) : R :=
  x * exp (dt * (r - 0.5 * sigma ^ 2) + sigma * sqrt dt * random).

(** The path loop of [paths_con], which the source has twice: over [Nopti]
    and [paths_1] (lines 41-44), then over [Nsim] and [paths_2] (lines 51-54).
<<
    for j in range(Npaths):
        for i in range(Nsteps):
            random = np.random.normal()
            paths[i+1,j] = paths[i,j] * np.exp(...)
>> *)
Definition gbm_loop (dt r sigma : R) (Nsteps Npaths : Z) (paths : matrix) (g : rng)
  : result (matrix * rng) :=
  for_each (range Npaths) (fun j '(paths, g) =>
      for_each (range Nsteps) (fun i '(paths, g) =>
          let '(random, g) := normal g in
          do x <- getitem2 paths i j ;;
          do paths <- setitem2 paths (i + 1) j (gbm_step dt r sigma x random) ;;
          Ok (paths, g))
        (paths, g))
    (paths, g).

(** The control coefficient of [paths_con] (lines 45-48), from the matrix of
    auxiliary paths:
<<
    payoffs_1 = np.maximum(option*(paths_1[-1,:]-K), 0)
    cov = np.cov(paths_1,payoffs_1)[1,0]
    var_z = S ** 2 * np.exp(2 * r * T) * (np.exp(T * sigma ** 2) - 1)
    c = -cov/var_z
>> *)
Definition control_coefficient (option S r sigma T : R) (paths_1 : matrix)
  : result R :=
  do last_1 <- getitem paths_1 (-1) ;;
  let payoffs_1 := payoff_row option last_1 in
  do covm <- np_cov paths_1 payoffs_1 ;;
  do cov <- getitem2 covm 1 0 ;;
  let var_z := S ^ 2 * exp (2 * r * T) * (exp (T * sigma ^ 2) - 1) in
  Ok (- cov / var_z).

(** The estimator of [paths_con] (lines 56-57), from the coefficient, the
    expected terminal price and the last row of the pricing paths:
<<
    payoffs_2 = np.maximum(option*(paths_2[-1,:]-K), 0) * np.exp(-r*T)
    mean = np.mean(payoffs_2 + c * (S - exp_z))
>> *)
Definition control_variate_mean (option S r T c exp_z : R) (last_2 : list R) : R :=
  let payoffs_2 := map (fun v => v * exp (- r * T)) (payoff_row option last_2) in
  np_mean (map (fun p => p + c * (S - exp_z)) payoffs_2).

(** [paths_con(option, S, r, sigma, T, Nsteps, Nsim, Nopti)] *)
Definition paths_con (option S r sigma T : R) (Nsteps Nsim Nopti : Z) (g : rng)
  : result (matrix * R * rng) :=
  do dt <- truediv T Nsteps ;;
  do paths_1 <- np_zeros (Nsteps + 1) Nopti ;;
  do paths_1 <- fill_row paths_1 0 S ;;
  do paths_2 <- np_zeros (Nsteps + 1) Nsim ;;
  do paths_2 <- fill_row paths_2 0 S ;;
  do '(paths_1, g) <- gbm_loop dt r sigma Nsteps Nopti paths_1 g ;;
  do c <- control_coefficient option S r sigma T paths_1 ;;
  let exp_z := S * exp (r * T) in
  do '(paths_2, g) <- gbm_loop dt r sigma Nsteps Nsim paths_2 g ;;
  do last_2 <- getitem paths_2 (-1) ;;
  let mean := control_variate_mean option S r T c exp_z last_2 in
  Ok (paths_2, mean, g).

(** *** Paths as functions of the draws

    [gbm x0 dt r sigma z i] is the price after [i] steps from [x0] along the
    draws [z 0], ..., [z (i-1)]; [gbm_matrix] is the path matrix whose column
    [j] follows the block of [Nsteps] draws that starts at
    [base + j * Nsteps] on the tape. *)

Fixpoint gbm (x0 dt r sigma : R) (z : nat -> R) (i : nat) : R :=
  match i with
  | O => x0
  | S i' => gbm_step dt r sigma (gbm x0 dt r sigma z i') (z i')
  end.

Definition gbm_matrix (x0 dt r sigma : R) (z : nat -> R) (base Nsteps Npaths : nat)
  : matrix :=
  map (fun i => map (fun j => gbm x0 dt r sigma (fun k => z (base + j * Nsteps + k)%nat) i)
                    (seq 0 Npaths))
      (seq 0 (S Nsteps)).

(** The last row of [gbm_matrix]: the terminal prices. *)
Definition terminal_row (x0 dt r sigma : R) (z : nat -> R) (base Nsteps Npaths : nat)
  : list R :=
  map (fun j => gbm x0 dt r sigma (fun k => z (base + j * Nsteps + k)%nat) Nsteps)
      (seq 0 Npaths).

Definition advance (g : rng) (n : nat) : rng :=
  {| tape := tape g; pos := (pos g + n)%nat |}.

(** The column that the index [-j] addresses among [Nsim] columns. *)
Definition mirror (Nsim j : nat) : nat :=
  match j with
  | O => O
  | S _ => (Nsim - j)%nat
  end.

(** Column 0 of [m] follows the negated draws from the position of [g]:
    each entry is the one above it times
    [exp(dt*(r-0.5*sigma**2) - sigma*sqrt(dt)*Z)]. *)
Definition negated_column0 (dt r sigma : R) (n : nat) (g : rng) (m : matrix) : Prop :=
  forall i, (i < n)%nat ->
    exists x, cell m i 0 = Some x /\
      cell m (Datatypes.S i) 0
      = Some (x * exp (dt * (r - 0.5 * sigma ^ 2)
                       - sigma * sqrt dt * tape g (pos g + i)%nat)).

(** The path matrix before the loops: [np.zeros((Nsteps+1, Npaths))] with
    row 0 set to [S]. *)
Definition initial_paths (S : R) (Nsteps Npaths : nat) : matrix :=
  <[O := replicate Npaths S]> (replicate (Datatypes.S Nsteps) (replicate Npaths 0)).

(** *** The estimator as the specification words it

    The sample covariance of two samples, the coefficient
    [c = -Cov(S_T, payoff)/Var(S_T)] with the closed-form lognormal variance,
    and the price [mean(discounted_payoff + c*(S - S_T))], [S_T] being each
    pricing path's own terminal price.  These follow the specification, not
    the source, and are what the source is compared with. *)

Definition sample_cov (xs ys : list R) : R :=
  np_sum (zip_with (fun x y => (x - np_mean xs) * (y - np_mean ys)) xs ys)
  / (INR (length xs) - 1).

Definition lognormal_var (S r sigma T : R) : R :=
  S ^ 2 * exp (2 * r * T) * (exp (T * sigma ^ 2) - 1).

Definition spec_control_coefficient (option S r sigma T : R) (terminal_1 : list R) : R :=
  - sample_cov terminal_1 (payoff_row option terminal_1) / lognormal_var S r sigma T.


(** *** The antithetic paths as functions of the draws

    The pass of [paths_anti] for the path index [p] reads the block of
    [Nsteps] draws that starts at [p * Nsteps]; [pass_draws] is that block,
    negated or not.  Column [c] is written by the pass [c] (with the draws as
    they are, unless [-c] is [c] again) and by the pass [mirror Nsim c] (with
    the draws negated); the later of the two passes decides what the column
    holds.  [anti_driver_after Nsim k c] is the pass and the sign that column
    [c] holds after the passes [0 .. k-1], if any has written it, and
    [anti_driver Nsim c] the one it holds when the loop is over. *)

Definition pass_draws (g : rng) (Nsteps p : nat) (negated : bool) (k : nat) : R :=
  if negated then - tape g (pos g + p * Nsteps + k)%nat
  else tape g (pos g + p * Nsteps + k)%nat.

Definition anti_driver_after (Nsim k c : nat) : option (nat * bool) :=
  let b := mirror Nsim c in
  if (b =? c)%nat then
    if (c <? k)%nat then Some (c, true) else None
  else if (c <? b)%nat then
    if (b <? k)%nat then Some (b, true)
    else if (c <? k)%nat then Some (c, false) else None
  else
    if (c <? k)%nat then Some (c, false)
    else if (b <? k)%nat then Some (b, true) else None.

Definition anti_driver (Nsim c : nat) : nat * bool :=
  if (c =? 0)%nat then (O, true)
  else if (Nsim <? 2 * c)%nat then (c, false)
  else ((Nsim - c)%nat, true).

(** The entry at row [i] of column [c] after the passes [0 .. k-1]. *)
Definition anti_cell_after (S dt r sigma : R) (g : rng) (Nsteps Nsim k c i : nat) : R :=
  match anti_driver_after Nsim k c with
  | Some (p, negated) => gbm S dt r sigma (pass_draws g Nsteps p negated) i
  | None => match i with O => S | Datatypes.S _ => 0 end
  end.

(** A tape for the worked examples: the first draw is [0], the later ones
    are [ln 2]. *)
Definition sample_draws (k : nat) : R :=
  match k with
  | O => 0
  | S _ => ln 2
  end.

(** A second tape, which differs from [sample_draws] at the positions 2
    and 3 only. *)
Definition other_draws (k : nat) : R :=
  match k with
  | 2%nat | 3%nat => 1
  | _ => sample_draws k
  end.

End MonteCarlo.

(** * Properties *)

(** ** Indexing, in-place updates and loops *)

Section PyFacts.
Import Py.

Lemma index_nat (len k : nat) : (k < len)%nat -> index len (Z.of_nat k) = Ok k.
Proof.
  intros Hk. unfold index.
  replace (0 <=? Z.of_nat k)%Z with true by (symmetry; apply Z.leb_le; lia).
  replace (Z.of_nat k <? Z.of_nat len)%Z with true by (symmetry; apply Z.ltb_lt; lia).
  simpl. now rewrite Nat2Z.id.
Qed.

Lemma index_neg (len k : nat) :
  (0 < k <= len)%nat -> index len (- Z.of_nat k) = Ok (len - k)%nat.
Proof.
  intros Hk. unfold index.
  replace (0 <=? - Z.of_nat k)%Z with false by (symmetry; apply Z.leb_gt; lia).
  replace (- Z.of_nat k <? 0)%Z with true by (symmetry; apply Z.ltb_lt; lia).
  replace (- Z.of_nat len <=? - Z.of_nat k)%Z with true by (symmetry; apply Z.leb_le; lia).
  simpl. f_equal. lia.
Qed.

Lemma getitem_nat {A} (l : list A) (k : nat) (v : A) :
  l !! k = Some v -> getitem l (Z.of_nat k) = Ok v.
Proof.
  intros Hl. unfold getitem.
  rewrite index_nat by (apply lookup_lt_Some in Hl; exact Hl).
  simpl. now rewrite Hl.
Qed.

(** [l[-1]] is the last element. *)
Lemma getitem_last {A} (l : list A) (n : nat) (v : A) :
  length l = S n -> l !! n = Some v -> getitem l (-1) = Ok v.
Proof.
  intros Hlen Hl. unfold getitem. rewrite Hlen.
  change (-1)%Z with (- Z.of_nat 1)%Z. rewrite index_neg by lia.
  cbn [bind]. replace (S n - 1)%nat with n by lia. now rewrite Hl.
Qed.

Lemma setitem_nat {A} (l : list A) (k : nat) (v : A) :
  (k < length l)%nat -> setitem l (Z.of_nat k) v = Ok (<[k := v]> l).
Proof.
  intros Hk. unfold setitem. now rewrite index_nat.
Qed.

Lemma shape_lookup (m : matrix) (rows cols i : nat) :
  shape m rows cols -> (i < rows)%nat ->
  exists row, m !! i = Some row /\ length row = cols.
Proof.
  intros [Hlen Hall] Hi.
  destruct (lookup_lt_is_Some_2 m i) as [row Hrow]; [lia |].
  exists row. split; [exact Hrow |].
  rewrite Forall_lookup in Hall. exact (Hall _ _ Hrow).
Qed.

Lemma cell_is_Some (m : matrix) (rows cols i j : nat) :
  shape m rows cols -> (i < rows)%nat -> (j < cols)%nat ->
  exists v, cell m i j = Some v.
Proof.
  intros Hs Hi Hj.
  destruct (shape_lookup m rows cols i Hs Hi) as (row & Hrow & Hlen).
  unfold cell. rewrite Hrow.
  apply lookup_lt_is_Some_2. lia.
Qed.

Lemma getitem2_cell (m : matrix) (i j : nat) (v : R) :
  cell m i j = Some v -> getitem2 m (Z.of_nat i) (Z.of_nat j) = Ok v.
Proof.
  unfold cell, getitem2. intros Hc.
  destruct (m !! i) as [row |] eqn:Hrow; [| discriminate].
  rewrite (getitem_nat m i row Hrow). simpl.
  now apply getitem_nat.
Qed.

Lemma setitem2_update (m : matrix) (rows cols i j : nat) (v : R) :
  shape m rows cols -> (i < rows)%nat -> (j < cols)%nat ->
  setitem2 m (Z.of_nat i) (Z.of_nat j) v = Ok (update m i j v).
Proof.
  intros Hs Hi Hj.
  destruct (shape_lookup m rows cols i Hs Hi) as (row & Hrow & Hlen).
  unfold setitem2, update. rewrite (getitem_nat m i row Hrow). simpl.
  rewrite setitem_nat by lia. simpl.
  rewrite setitem_nat by (destruct Hs; lia).
  now rewrite Hrow.
Qed.

Lemma shape_update (m : matrix) (rows cols i j : nat) (v : R) :
  shape m rows cols -> shape (update m i j v) rows cols.
Proof.
  intros [Hlen Hall]. unfold update.
  destruct (m !! i) as [row |] eqn:Hrow; [| now split].
  split.
  - now rewrite length_insert.
  - apply Forall_insert; [exact Hall |]. cbv beta.
    rewrite length_insert. rewrite Forall_lookup in Hall. exact (Hall _ _ Hrow).
Qed.

Lemma lookup_update_ne (m : matrix) (i j i' : nat) (v : R) :
  i <> i' -> update m i j v !! i' = m !! i'.
Proof.
  intros Hne. unfold update.
  destruct (m !! i); [| reflexivity].
  now apply list_lookup_insert_ne.
Qed.

Lemma cell_update_eq (m : matrix) (rows cols i j : nat) (v : R) :
  shape m rows cols -> (i < rows)%nat -> (j < cols)%nat ->
  cell (update m i j v) i j = Some v.
Proof.
  intros Hs Hi Hj.
  destruct (shape_lookup m rows cols i Hs Hi) as (row & Hrow & Hlen).
  unfold cell, update. rewrite Hrow.
  rewrite list_lookup_insert_eq by (destruct Hs; lia).
  apply list_lookup_insert_eq. lia.
Qed.

Lemma cell_update_ne (m : matrix) (i j i' j' : nat) (v : R) :
  i <> i' \/ j <> j' -> cell (update m i j v) i' j' = cell m i' j'.
Proof.
  intros Hne. unfold cell.
  destruct (Nat.eq_dec i i') as [<- | Hi].
  - unfold update. destruct (m !! i) as [row |] eqn:Hrow; [| now rewrite Hrow].
    rewrite list_lookup_insert_eq by (apply lookup_lt_Some in Hrow; exact Hrow).
    apply list_lookup_insert_ne. destruct Hne; congruence.
  - now rewrite lookup_update_ne.
Qed.

(** Two matrices of the same dimensions with the same entries are equal. *)
Lemma matrix_ext (m1 m2 : matrix) (rows cols : nat) :
  shape m1 rows cols -> shape m2 rows cols ->
  (forall i j, (i < rows)%nat -> (j < cols)%nat -> cell m1 i j = cell m2 i j) ->
  m1 = m2.
Proof.
  intros Hs1 Hs2 Hc. apply list_eq. intros i.
  destruct (Nat.lt_ge_cases i rows) as [Hi | Hi].
  - destruct (shape_lookup m1 rows cols i Hs1 Hi) as (row1 & Hr1 & Hl1).
    destruct (shape_lookup m2 rows cols i Hs2 Hi) as (row2 & Hr2 & Hl2).
    rewrite Hr1, Hr2. f_equal. apply list_eq. intros j.
    destruct (Nat.lt_ge_cases j cols) as [Hj | Hj].
    + specialize (Hc i j Hi Hj). unfold cell in Hc. now rewrite Hr1, Hr2 in Hc.
    + rewrite !lookup_ge_None_2 by lia. reflexivity.
  - destruct Hs1, Hs2. rewrite !lookup_ge_None_2 by lia. reflexivity.
Qed.

(** The rule of a [for k in range(n)] loop: an invariant indexed by the
    number of iterations done. *)
Lemma for_range_from {S : Type} (P : nat -> S -> Prop)
    (body : Z -> S -> result S) (n a : nat) (s0 : S) :
  P a s0 ->
  (forall k s, (a <= k < a + n)%nat -> P k s ->
     exists s', body (Z.of_nat k) s = Ok s' /\ P (Datatypes.S k) s') ->
  exists s', for_each (map Z.of_nat (seq a n)) body s0 = Ok s' /\ P (a + n)%nat s'.
Proof.
  revert a s0. induction n as [| n IH]; intros a s0 H0 Hstep.
  - exists s0. rewrite Nat.add_0_r. now split.
  - simpl. destruct (Hstep a s0) as (s1 & Hb & H1); [lia | exact H0 |].
    rewrite Hb. simpl.
    destruct (IH (Datatypes.S a) s1 H1) as (s' & Hf & HP).
    + intros k s Hk. apply Hstep. lia.
    + exists s'. split; [exact Hf |]. now replace (a + Datatypes.S n)%nat with (Datatypes.S a + n)%nat by lia.
Qed.

Lemma for_range (S : Type) (P : nat -> S -> Prop)
    (body : Z -> S -> result S) (n : Z) (s0 : S) :
  P O s0 ->
  (forall k s, (k < Z.to_nat n)%nat -> P k s ->
     exists s', body (Z.of_nat k) s = Ok s' /\ P (Datatypes.S k) s') ->
  exists s', for_each (range n) body s0 = Ok s' /\ P (Z.to_nat n) s'.
Proof.
  intros H0 Hstep. unfold range.
  apply (for_range_from P body (Z.to_nat n) O s0 H0).
  intros k s Hk. apply Hstep. lia.
Qed.

(** The rule of a [for k in range(n-1, -1, -1)] loop: the invariant is
    indexed by the number of iterations left. *)
Lemma for_range_down (S : Type) (P : nat -> S -> Prop)
    (body : Z -> S -> result S) (n : Z) (s0 : S) :
  P (Z.to_nat n) s0 ->
  (forall k s, (k < Z.to_nat n)%nat -> P (Datatypes.S k) s ->
     exists s', body (Z.of_nat k) s = Ok s' /\ P k s') ->
  exists s', for_each (range_down n) body s0 = Ok s' /\ P O s'.
Proof.
  unfold range_down, range. generalize (Z.to_nat n) as m. clear n.
  intros m. revert s0. induction m as [| m IH]; intros s0 H0 Hstep.
  - exists s0. now split.
  - rewrite seq_S, map_app, rev_app_distr. simpl.
    destruct (Hstep m s0) as (s1 & Hb & H1); [lia | exact H0 |].
    rewrite Hb. simpl. apply IH; [exact H1 |].
    intros k s Hk. apply Hstep. lia.
Qed.

(** A loop that appends one computed element per index builds the list of
    these elements. *)
Lemma for_range_append {A : Type} (f : Z -> result A) (F : nat -> A) (n : Z) :
  (forall k, (k < Z.to_nat n)%nat -> f (Z.of_nat k) = Ok (F k)) ->
  for_each (range n) (fun i acc => do x <- f i ;; Ok (acc ++ [x])) []
  = Ok (map F (seq 0 (Z.to_nat n))).
Proof.
  intros Hf.
  destruct (for_range (list A) (fun k acc => acc = map F (seq 0 k))
              (fun i acc => do x <- f i ;; Ok (acc ++ [x])) n [])
    as (s' & Hrun & ->); [reflexivity | | exact Hrun].
  intros k s Hk ->. rewrite (Hf k Hk). cbn [bind].
  eexists. split; [reflexivity |]. now rewrite seq_S, map_app.
Qed.

Lemma setitem2_written (m : matrix) (rows cols i j : nat) (v : R) :
  shape m rows cols -> (i < rows)%nat -> (j < cols)%nat ->
  exists m', setitem2 m (Z.of_nat i) (Z.of_nat j) v = Ok m' /\
             written m m' rows cols i j v.
Proof.
  intros Hs Hi Hj. exists (update m i j v). split.
  - now apply (setitem2_update m rows cols).
  - split; [now apply shape_update |].
    split; [now apply (cell_update_eq m rows cols) |].
    intros i' j' Hne. now apply cell_update_ne.
Qed.

Lemma written_refl (m : matrix) (rows cols i j : nat) (v : R) :
  shape m rows cols -> cell m i j = Some v -> written m m rows cols i j v.
Proof. intros Hs Hc. split; [exact Hs |]. split; [exact Hc |]. reflexivity. Qed.

Lemma written_trans (m m1 m2 : matrix) (rows cols i j : nat) (v w : R) :
  written m m1 rows cols i j v -> written m1 m2 rows cols i j w ->
  written m m2 rows cols i j w.
Proof.
  intros (_ & _ & H1) (Hs & Hc & H2).
  split; [exact Hs |]. split; [exact Hc |].
  intros i' j' Hne. rewrite H2 by exact Hne. now apply H1.
Qed.

End PyFacts.

(** ** The lattice pricer *)

Section HullWhiteFacts.
Import Py HullWhite.

Lemma lookup_map {A B} (f : A -> B) (l : list A) (i : nat) :
  map f l !! i = option_map f (l !! i).
Proof. exact (list_lookup_fmap f l i). Qed.

(** The builder returns the lattice of the rates [r0 + (2j - i) dx], for
    every step count but zero. *)
Lemma build_rate_tree_lattice (r0 a sigma T : R) (N : Z) :
  N <> 0%Z ->
  build_rate_tree r0 a sigma T N
  = Ok (lattice r0 (sigma * sqrt (T / IZR N)) N, T / IZR N, sigma * sqrt (T / IZR N)).
Proof.
  intros HN. unfold build_rate_tree, truediv.
  destruct (N =? 0)%Z eqn:E; [apply Z.eqb_eq in E; contradiction |].
  cbn [bind]. cbv zeta.
  set (dx := sigma * sqrt (T / IZR N)).
  rewrite (for_range_append _ (fun i => map (fun j => rate r0 dx i j) (seq 0 (S i)))).
  - reflexivity.
  - intros k _.
    pose proof (for_range_append
      (fun j => Ok (r0 + IZR (2 * j - Z.of_nat k) * dx))
      (fun j => rate r0 dx k j) (Z.of_nat k + 1)) as Hin.
    cbn [bind] in Hin. rewrite Hin by reflexivity.
    now replace (Z.to_nat (Z.of_nat k + 1)) with (S k) by lia.
Qed.

Lemma cell_lattice (r0 dx : R) (N : Z) (i j : nat) :
  (Z.of_nat i <= N)%Z -> (j <= i)%nat ->
  cell (lattice r0 dx N) i j = Some (rate r0 dx i j).
Proof.
  intros Hi Hj. unfold cell, lattice.
  rewrite lookup_map, lookup_seq_lt by lia. cbn [option_map].
  rewrite lookup_map, lookup_seq_lt by lia. reflexivity.
Qed.

Lemma getitem2_lattice (r0 dx : R) (N : Z) (i j : nat) :
  (Z.of_nat i <= N)%Z -> (j <= i)%nat ->
  getitem2 (lattice r0 dx N) (Z.of_nat i) (Z.of_nat j) = Ok (rate r0 dx i j).
Proof. intros Hi Hj. apply getitem2_cell. now apply cell_lattice. Qed.

Lemma shape_zeros (rows cols : nat) :
  shape (replicate rows (replicate cols 0)) rows cols.
Proof.
  split; [apply length_replicate |].
  apply Forall_replicate, length_replicate.
Qed.

Lemma barrier_block_written (is_barrier : bool) (barrier_type : option string)
    (barrier r v : R) (g : matrix) (rows cols i j : nat) :
  shape g rows cols -> (i < rows)%nat -> (j < cols)%nat -> cell g i j = Some v ->
  exists g', barrier_block is_barrier barrier_type barrier r g (Z.of_nat i) (Z.of_nat j) = Ok g'
             /\ written g g' rows cols i j (knock is_barrier barrier_type barrier r v).
Proof.
  intros Hs Hi Hj Hc.
  pose proof (setitem2_written g rows cols i j 0 Hs Hi Hj) as Hset.
  pose proof (written_refl g rows cols i j v Hs Hc) as Hrefl.
  unfold barrier_block, knock.
  destruct is_barrier; [| eauto].
  destruct barrier_type as [bt |]; [| eauto].
  repeat match goal with
         | |- context [if ?b then _ else _] => destruct b
         end; eauto.
Qed.

(** [price_option] computes, through its array, the value that backward
    induction assigns to the root. *)
Lemma price_option_lattice_value (r0 a sigma T : R) (n : nat) (option_type : string)
    (strike : R) (barrier_type : option string) (barrier : R)
    (is_barrier is_bermudan is_call : bool) :
  (1 <= n)%nat ->
  price_option r0 a sigma T (Z.of_nat n) option_type strike barrier_type barrier
    is_barrier is_bermudan is_call
  = Ok (lattice_value r0 (sigma * sqrt (T / IZR (Z.of_nat n))) (T / IZR (Z.of_nat n))
          strike barrier barrier_type is_barrier is_bermudan is_call n 0 0).
Proof.
  intros Hn. unfold price_option.
  rewrite build_rate_tree_lattice by lia. cbn [bind].
  set (dt := T / IZR (Z.of_nat n)). set (dx := sigma * sqrt dt).
  set (V := lattice_value r0 dx dt strike barrier barrier_type
              is_barrier is_bermudan is_call).
  unfold np_zeros.
  replace (Z.of_nat n + 1 <? 0)%Z with false by (symmetry; apply Z.ltb_ge; lia).
  cbn [orb bind].
  replace (Z.to_nat (Z.of_nat n + 1)) with (S n) by lia.
  (* Terminal payoff. *)
  match goal with
  | |- context [for_each (range (Z.of_nat n + 1)) ?body ?g0] =>
      destruct (for_range matrix
                  (fun k g => shape g (S n) (S n) /\
                              forall j, (j < k)%nat -> cell g n j = Some (V O n j))
                  body (Z.of_nat n + 1)%Z g0) as (gT & -> & HsT & HT)
  end.
  { split; [apply shape_zeros | intros j Hj; lia]. }
  { intros k g Hk [Hs Hdone].
    rewrite getitem2_lattice by lia. cbn [bind]. cbv zeta.
    destruct (setitem2_written g (S n) (S n) n k
                (Rmax (if is_call then rate r0 dx n k - strike
                       else strike - rate r0 dx n k) 0) Hs)
      as (g1 & -> & Hw1); [lia | lia |]. cbn [bind].
    destruct (barrier_block_written is_barrier barrier_type barrier (rate r0 dx n k)
                _ g1 (S n) (S n) n k (proj1 Hw1) ltac:(lia) ltac:(lia)
                (proj1 (proj2 Hw1)))
      as (g2 & -> & Hw2).
    exists g2. split; [reflexivity |].
    pose proof (written_trans _ _ _ _ _ _ _ _ _ Hw1 Hw2) as (Hs2 & Hc2 & Hf2).
    split; [exact Hs2 |]. intros j Hj.
    destruct (Nat.eq_dec j k) as [-> | Hne].
    - exact Hc2.
    - rewrite Hf2 by (right; congruence). apply Hdone. lia. }
  cbn [bind]. replace (Z.to_nat (Z.of_nat n + 1)) with (S n) in HT by lia.
  (* Backward induction. *)
  match goal with
  | |- context [for_each (range_down (Z.of_nat n)) ?body gT] =>
      destruct (for_range_down matrix
                  (fun k g => shape g (S n) (S n) /\
                              forall i j, (k <= i <= n)%nat -> (j <= i)%nat ->
                                cell g i j = Some (V (n - i)%nat i j))
                  body (Z.of_nat n) gT) as (g0 & -> & Hs0 & H0)
  end.
  { rewrite Nat2Z.id. split; [exact HsT |]. intros i j Hi Hj.
    replace i with n by lia. rewrite Nat.sub_diag. apply HT. lia. }
  { rewrite Nat2Z.id. intros k g Hk [Hs Hdone].
    match goal with
    | |- context [for_each (range (Z.of_nat k + 1)) ?body g] =>
        destruct (for_range matrix
                    (fun m g' => shape g' (S n) (S n) /\
                       (forall i j, (S k <= i <= n)%nat -> (j <= i)%nat ->
                          cell g' i j = Some (V (n - i)%nat i j)) /\
                       (forall j, (j < m)%nat -> cell g' k j = Some (V (n - k)%nat k j)))
                    body (Z.of_nat k + 1)%Z g) as (g' & -> & Hs' & Hup & Hrow)
    end.
    - split; [exact Hs |]. split; [exact Hdone | intros j Hj; lia].
    - replace (Z.to_nat (Z.of_nat k + 1)) with (S k) by lia.
      intros m gm Hm (Hsm & Hupm & Hrowm).
      rewrite getitem2_lattice by lia. cbn [bind]. cbv zeta.
      replace (Z.of_nat k + 1)%Z with (Z.of_nat (S k)) by lia.
      replace (Z.of_nat m + 1)%Z with (Z.of_nat (S m)) by lia.
      rewrite (getitem2_cell gm (S k) (S m) _ (Hupm (S k) (S m) ltac:(lia) ltac:(lia))).
      cbn [bind].
      rewrite (getitem2_cell gm (S k) m _ (Hupm (S k) m ltac:(lia) ltac:(lia))).
      cbn [bind].
      set (up := V (n - S k)%nat (S k) (S m)).
      set (down := V (n - S k)%nat (S k) m).
      assert (HV : V (n - k)%nat k m
                   = node_value dt strike barrier barrier_type is_barrier is_bermudan
                       is_call (rate r0 dx k m) up down).
      { replace (n - k)%nat with (S (n - S k)) by lia. reflexivity. }
      assert (Hwrite : exists g1,
                 (if is_bermudan
                  then setitem2 gm (Z.of_nat k) (Z.of_nat m)
                         (Rmax (exp (- rate r0 dx k m * dt) * (0.5 * up + (1 - 0.5) * down))
                               (Rmax (if is_call then rate r0 dx k m - strike
                                      else strike - rate r0 dx k m) 0))
                  else setitem2 gm (Z.of_nat k) (Z.of_nat m)
                         (exp (- rate r0 dx k m * dt) * (0.5 * up + (1 - 0.5) * down)))
                 = Ok g1 /\
                 written gm g1 (S n) (S n) k m
                   (if is_bermudan
                    then Rmax (continuation_value dt (rate r0 dx k m) up down)
                              (intrinsic_value is_call strike (rate r0 dx k m))
                    else continuation_value dt (rate r0 dx k m) up down)).
      { destruct is_bermudan; apply setitem2_written; (exact Hsm || lia). }
      destruct Hwrite as (g1 & -> & Hw1). cbn [bind].
      destruct (barrier_block_written is_barrier barrier_type barrier (rate r0 dx k m)
                  _ g1 (S n) (S n) k m (proj1 Hw1) ltac:(lia) ltac:(lia)
                  (proj1 (proj2 Hw1)))
        as (g2 & -> & Hw2).
      exists g2. split; [reflexivity |].
      pose proof (written_trans _ _ _ _ _ _ _ _ _ Hw1 Hw2) as (Hs2 & Hc2 & Hf2).
      split; [exact Hs2 |]. split.
      + intros i j Hi Hj. rewrite Hf2 by (left; lia). now apply Hupm.
      + intros j Hj. destruct (Nat.eq_dec j m) as [-> | Hne].
        * rewrite Hc2, HV. reflexivity.
        * rewrite Hf2 by (right; congruence). apply Hrowm. lia.
    - exists g'. split; [reflexivity |]. split; [exact Hs' |].
      replace (Z.to_nat (Z.of_nat k + 1)) with (S k) in Hrow by lia.
      intros i j Hi Hj. destruct (Nat.eq_dec i k) as [-> | Hne].
      + apply Hrow. lia.
      + apply Hup; lia. }
  cbn [bind]. change 0%Z with (Z.of_nat 0). apply getitem2_cell.
  rewrite (H0 O O) by lia. now rewrite Nat.sub_0_r.
Qed.

Lemma price_option_value (r0 a sigma T : R) (N : Z) (option_type : string)
    (strike : R) (barrier_type : option string) (barrier : R)
    (is_barrier is_bermudan is_call : bool) :
  (1 <= N)%Z ->
  price_option r0 a sigma T N option_type strike barrier_type barrier
    is_barrier is_bermudan is_call
  = Ok (lattice_value r0 (sigma * sqrt (T / IZR N)) (T / IZR N)
          strike barrier barrier_type is_barrier is_bermudan is_call (Z.to_nat N) 0 0).
Proof.
  intros HN. rewrite <- (Z2Nat.id N) at 1 2 3 by lia.
  apply price_option_lattice_value. lia.
Qed.

(** The barrier block either zeroes a node or leaves it, and which of the
    two depends on the node's rate only. *)
Lemma knock_cases (is_barrier : bool) (barrier_type : option string) (barrier r : R) :
  (forall v, knock is_barrier barrier_type barrier r v = 0) \/
  (forall v, knock is_barrier barrier_type barrier r v = v).
Proof.
  unfold knock. destruct is_barrier; [| now right].
  destruct barrier_type as [bt |]; [| now right].
  repeat match goal with
         | |- context [if ?b then _ else _] => destruct b
         end; auto.
Qed.

Lemma knock_mono (is_barrier : bool) (barrier_type : option string) (barrier r v w : R) :
  v <= w ->
  knock is_barrier barrier_type barrier r v <= knock is_barrier barrier_type barrier r w.
Proof.
  intros Hvw.
  destruct (knock_cases is_barrier barrier_type barrier r) as [H | H];
    rewrite !H; lra.
Qed.

Lemma knock_nonneg (is_barrier : bool) (barrier_type : option string) (barrier r v : R) :
  0 <= v -> 0 <= knock is_barrier barrier_type barrier r v.
Proof.
  intros Hv.
  destruct (knock_cases is_barrier barrier_type barrier r) as [H | H];
    rewrite H; lra.
Qed.

Lemma knock_le (is_barrier : bool) (barrier_type : option string) (barrier r v w : R) :
  0 <= w -> v <= w -> knock is_barrier barrier_type barrier r v <= w.
Proof.
  intros Hw Hvw.
  destruct (knock_cases is_barrier barrier_type barrier r) as [H | H];
    rewrite H; lra.
Qed.

Lemma intrinsic_value_nonneg (is_call : bool) (strike r : R) :
  0 <= intrinsic_value is_call strike r.
Proof. unfold intrinsic_value. apply Rmax_r. Qed.

Lemma continuation_value_mono (dt r up down up' down' : R) :
  up <= up' -> down <= down' ->
  continuation_value dt r up down <= continuation_value dt r up' down'.
Proof.
  intros Hu Hd. unfold continuation_value.
  pose proof (exp_pos (- r * dt)). nra.
Qed.

Lemma continuation_value_nonneg (dt r up down : R) :
  0 <= up -> 0 <= down -> 0 <= continuation_value dt r up down.
Proof.
  intros Hu Hd. unfold continuation_value.
  pose proof (exp_pos (- r * dt)). nra.
Qed.

Section ValueOrder.
Variables (r0 dx dt strike : R) (is_call : bool).

(** Every node value is a maximum with zero, a discounted average of
    non-negative values, or zero. *)
Lemma lattice_value_nonneg (barrier : R) (barrier_type : option string)
    (is_barrier is_bermudan : bool) (k i j : nat) :
  0 <= lattice_value r0 dx dt strike barrier barrier_type
         is_barrier is_bermudan is_call k i j.
Proof.
  revert i j. induction k as [| k IH]; intros i j; cbn [lattice_value].
  - apply knock_nonneg, intrinsic_value_nonneg.
  - unfold node_value. apply knock_nonneg.
    pose proof (continuation_value_nonneg dt (rate r0 dx i j) _ _
                  (IH (S i) (S j)) (IH (S i) j)) as Hc.
    destruct is_bermudan; [| exact Hc].
    eapply Rle_trans; [exact Hc | apply Rmax_l].
Qed.

(** Node by node, early exercise does not lower the value. *)
Lemma lattice_value_bermudan (barrier : R) (barrier_type : option string)
    (is_barrier : bool) (k i j : nat) :
  lattice_value r0 dx dt strike barrier barrier_type is_barrier false is_call k i j
  <= lattice_value r0 dx dt strike barrier barrier_type is_barrier true is_call k i j.
Proof.
  revert i j. induction k as [| k IH]; intros i j; cbn [lattice_value].
  - lra.
  - unfold node_value. apply knock_mono.
    eapply Rle_trans; [| apply Rmax_l].
    apply continuation_value_mono; apply IH.
Qed.

(** Node by node, a barrier block does not raise the value above the one
    computed when no node is ever zeroed. *)
Lemma lattice_value_barrier (barrier barrier' : R) (barrier_type : option string)
    (is_barrier is_bermudan : bool) (k i j : nat) :
  lattice_value r0 dx dt strike barrier barrier_type is_barrier is_bermudan is_call k i j
  <= lattice_value r0 dx dt strike barrier' None false is_bermudan is_call k i j.
Proof.
  revert i j. induction k as [| k IH]; intros i j; cbn [lattice_value].
  - apply knock_le; [apply intrinsic_value_nonneg | cbn [knock]; lra].
  - unfold node_value at 2. cbn [knock].
    unfold node_value. apply knock_le.
    + pose proof (continuation_value_nonneg dt (rate r0 dx i j) _ _
        (lattice_value_nonneg barrier' None false is_bermudan k (S i) (S j))
        (lattice_value_nonneg barrier' None false is_bermudan k (S i) j)) as Hc.
      destruct is_bermudan; [| exact Hc].
      eapply Rle_trans; [exact Hc | apply Rmax_l].
    + pose proof (continuation_value_mono dt (rate r0 dx i j) _ _ _ _
        (IH (S i) (S j)) (IH (S i) j)) as Hc.
      destruct is_bermudan; [| exact Hc].
      apply Rmax_lub; [eapply Rle_trans; [exact Hc | apply Rmax_l] | apply Rmax_r].
Qed.
End ValueOrder.

End HullWhiteFacts.

(** *** Properties of the lattice pricer *)

Section HullWhiteClaims.
Import Py HullWhite.

Lemma build_rate_tree_zero (r0 a sigma T : R) :
  build_rate_tree r0 a sigma T 0 = Raise ZeroDivisionError.
Proof. reflexivity. Qed.

Lemma price_option_zero (r0 a sigma T : R) (option_type : string) (strike : R)
    (barrier_type : option string) (barrier : R)
    (is_barrier is_bermudan is_call : bool) :
  price_option r0 a sigma T 0 option_type strike barrier_type barrier
    is_barrier is_bermudan is_call = Raise ZeroDivisionError.
Proof. reflexivity. Qed.

(** Without a positive step count no price is returned, whatever the other
    arguments: zero divides, [-1] leaves an empty array to read the root
    from, anything lower is a negative dimension. *)
Lemma price_option_nonpositive_raises (r0 a sigma T : R) (N : Z)
    (option_type : string) (strike : R) (barrier_type : option string) (barrier : R)
    (is_barrier is_bermudan is_call : bool) :
  (N <= 0)%Z ->
  price_option r0 a sigma T N option_type strike barrier_type barrier
    is_barrier is_bermudan is_call
  = Raise (if (N =? 0)%Z then ZeroDivisionError
           else if (N =? -1)%Z then IndexError else ValueError).
Proof.
  intros HN.
  destruct (Z.eqb_spec N 0) as [-> | H0]; [reflexivity |].
  destruct (Z.eqb_spec N (-1)) as [-> | H1]; [reflexivity |].
  unfold price_option. rewrite build_rate_tree_lattice by exact H0.
  cbn [bind]. unfold np_zeros.
  replace (N + 1 <? 0)%Z with true by (symmetry; apply Z.ltb_lt; lia).
  reflexivity.
Qed.

Lemma lattice_levels (r0 dx : R) (N : Z) :
  length (lattice r0 dx N) = Z.to_nat (N + 1) /\
  forall i, (i < Z.to_nat (N + 1))%nat ->
    exists level, lattice r0 dx N !! i = Some level /\ length level = S i.
Proof.
  unfold lattice. split.
  - now rewrite length_map, length_seq.
  - intros i Hi. eexists. split.
    + rewrite lookup_map, lookup_seq_lt by exact Hi. reflexivity.
    + now rewrite length_map, length_seq.
Qed.

(** C4, as the claim has it, fails: with [N = 0] the builder raises
    [ZeroDivisionError] at [dt = T / N], so no lattice, and in particular no
    single-node lattice, is returned. *)
Lemma build_rate_tree_zero_steps_no_lattice :
  ~ (exists tree dt dx,
        build_rate_tree (3 / 100) (1 / 10) (1 / 100) 1 0 = Ok (tree, dt, dx) /\
        length tree = 1%nat).
Proof.
  intros (tree & dt & dx & H & _).
  rewrite build_rate_tree_zero in H. discriminate H.
Qed.

(** C4, amended: for every [N >= 1] the lattice builder has no error
    condition; it returns [N + 1] levels, level [i] holding [i + 1] rates,
    and [price_option] returns a price.  With [N = 0] both raise
    [ZeroDivisionError]. *)
Theorem build_rate_tree_total_from_one_step
    (r0 a sigma T : R) (N : Z) (option_type : string) (strike : R)
    (barrier_type : option string) (barrier : R)
    (is_barrier is_bermudan is_call : bool) :
  (1 <= N)%Z ->
  (exists tree dt dx,
      build_rate_tree r0 a sigma T N = Ok (tree, dt, dx) /\
      length tree = Z.to_nat (N + 1) /\
      forall i, (i < Z.to_nat (N + 1))%nat ->
        exists level, tree !! i = Some level /\ length level = S i) /\
  (exists price,
      price_option r0 a sigma T N option_type strike barrier_type barrier
        is_barrier is_bermudan is_call = Ok price) /\
  build_rate_tree r0 a sigma T 0 = Raise ZeroDivisionError /\
  price_option r0 a sigma T 0 option_type strike barrier_type barrier
    is_barrier is_bermudan is_call = Raise ZeroDivisionError.
Proof.
  intros HN. split; [| split; [| split]].
  - do 3 eexists. split; [apply build_rate_tree_lattice; lia |].
    apply lattice_levels.
  - eexists. now apply price_option_value.
  - apply build_rate_tree_zero.
  - apply price_option_zero.
Qed.

Lemma build_rate_tree_total_from_one_step_witness :
  (1 <= 3)%Z /\
  ((exists tree dt dx,
      build_rate_tree (3 / 100) (1 / 10) (1 / 100) 1 3 = Ok (tree, dt, dx) /\
      length tree = Z.to_nat (3 + 1) /\
      forall i, (i < Z.to_nat (3 + 1))%nat ->
        exists level, tree !! i = Some level /\ length level = S i) /\
   (exists price,
      price_option (3 / 100) (1 / 10) (1 / 100) 1 3 "European" (3 / 100) None 0
        false false true = Ok price) /\
   build_rate_tree (3 / 100) (1 / 10) (1 / 100) 1 0 = Raise ZeroDivisionError /\
   price_option (3 / 100) (1 / 10) (1 / 100) 1 0 "European" (3 / 100) None 0
     false false true = Raise ZeroDivisionError).
Proof.
  split; [lia |].
  apply (build_rate_tree_total_from_one_step
           (3 / 100) (1 / 10) (1 / 100) 1 3 "European" (3 / 100) None 0
           false false true).
  lia.
Defined.

Lemma exp_le_mono (x y : R) : x <= y -> exp x <= exp y.
Proof.
  intros [H | ->]; [left; now apply exp_increasing | right; reflexivity].
Qed.

Lemma exp_ge_1 (x : R) : 0 <= x -> 1 <= exp x.
Proof. intros H. rewrite <- exp_0. now apply exp_le_mono. Qed.

(** No rate of the first [n + 1] levels is further from zero than
    [|r0| + n |dx|]. *)
Lemma rate_abs_le (r0 dx : R) (n i j : nat) :
  (j <= i)%nat -> (i <= n)%nat ->
  Rabs (rate r0 dx i j) <= Rabs r0 + INR n * Rabs dx.
Proof.
  intros Hj Hi. unfold rate.
  eapply Rle_trans; [apply Rabs_triang |].
  rewrite Rabs_mult, <- abs_IZR, INR_IZR_INZ.
  assert (Hz : IZR (Z.abs (2 * Z.of_nat j - Z.of_nat i)) <= IZR (Z.of_nat n))
    by (apply IZR_le; lia).
  pose proof (Rabs_pos dx). nra.
Qed.

Lemma intrinsic_value_le (is_call : bool) (strike r : R) :
  intrinsic_value is_call strike r <= Rabs r + Rabs strike.
Proof.
  unfold intrinsic_value.
  pose proof (Rle_abs r) as H1. pose proof (Rle_abs (- r)) as H2.
  pose proof (Rle_abs strike) as H3. pose proof (Rle_abs (- strike)) as H4.
  rewrite Rabs_Ropp in H2, H4.
  destruct is_call; apply Rmax_lub; lra.
Qed.

(** The values of backward induction are bounded: with [k] steps left, a
    node of the first [n + 1] levels is worth at most the largest intrinsic
    value, [|r0| + n |dx| + |strike|], compounded over [k] steps at the
    largest rate, [|r0| + n |dx|]. *)
Lemma lattice_value_le (r0 dx dt strike barrier : R) (barrier_type : option string)
    (is_barrier is_bermudan is_call : bool) (n k i j : nat) :
  0 <= dt -> (i + k = n)%nat -> (j <= i)%nat ->
  lattice_value r0 dx dt strike barrier barrier_type is_barrier is_bermudan is_call k i j
  <= exp (INR k * dt * (Rabs r0 + INR n * Rabs dx))
     * (Rabs r0 + INR n * Rabs dx + Rabs strike).
Proof.
  intros Hdt. set (A := Rabs r0 + INR n * Rabs dx).
  assert (HA : 0 <= A).
  { unfold A. pose proof (Rabs_pos r0). pose proof (Rabs_pos dx).
    pose proof (pos_INR n). nra. }
  pose proof (Rabs_pos strike) as HK.
  revert i j. induction k as [| k IH]; intros i j Hik Hj; cbn [lattice_value].
  - cbn [INR]. rewrite !Rmult_0_l, exp_0, Rmult_1_l.
    pose proof (intrinsic_value_le is_call strike (rate r0 dx i j)) as Hin.
    pose proof (rate_abs_le r0 dx n i j Hj ltac:(lia)) as Hr. fold A in Hr.
    apply knock_le; lra.
  - pose proof (rate_abs_le r0 dx n i j Hj ltac:(lia)) as Hr. fold A in Hr.
    pose proof (intrinsic_value_le is_call strike (rate r0 dx i j)) as Hin.
    pose proof (IH (S i) (S j) ltac:(lia) ltac:(lia)) as Hup.
    pose proof (IH (S i) j ltac:(lia) ltac:(lia)) as Hdown.
    pose proof (lattice_value_nonneg r0 dx dt strike is_call barrier barrier_type
                  is_barrier is_bermudan k (S i) (S j)) as Hup0.
    pose proof (lattice_value_nonneg r0 dx dt strike is_call barrier barrier_type
                  is_barrier is_bermudan k (S i) j) as Hdown0.
    set (B := exp (INR k * dt * A) * (A + Rabs strike)) in *.
    assert (HB : exp (INR (S k) * dt * A) * (A + Rabs strike) = exp (dt * A) * B).
    { unfold B. rewrite S_INR.
      replace ((INR k + 1) * dt * A) with (dt * A + INR k * dt * A) by ring.
      rewrite exp_plus. ring. }
    rewrite HB.
    assert (HE : 1 <= exp (dt * A)) by (apply exp_ge_1; now apply Rmult_le_pos).
    assert (HB0 : A + Rabs strike <= B).
    { unfold B. pose proof (exp_ge_1 (INR k * dt * A)) as H1.
      assert (H0 : 0 <= INR k * dt * A).
      { apply Rmult_le_pos; [apply Rmult_le_pos; [apply pos_INR | exact Hdt] | exact HA]. }
      specialize (H1 H0). nra. }
    assert (Hcont : continuation_value dt (rate r0 dx i j)
                      (lattice_value r0 dx dt strike barrier barrier_type is_barrier
                         is_bermudan is_call k (S i) (S j))
                      (lattice_value r0 dx dt strike barrier barrier_type is_barrier
                         is_bermudan is_call k (S i) j)
                    <= exp (dt * A) * B).
    { unfold continuation_value.
      assert (Hd : exp (- rate r0 dx i j * dt) <= exp (dt * A)).
      { apply exp_le_mono. pose proof (Rle_abs (- rate r0 dx i j)) as H1.
        rewrite Rabs_Ropp in H1. nra. }
      pose proof (exp_pos (- rate r0 dx i j * dt)). nra. }
    unfold node_value. apply knock_le; [nra |].
    destruct is_bermudan; [| exact Hcont].
    apply Rmax_lub; [exact Hcont | nra].
Qed.

(** C5: for every step count [N >= 1] and maturity [T >= 0], and any
    strike, barrier setting, exercise style and call/put flag,
    [price_option] returns a price; the price is non-negative, and it is
    finite: at most the largest intrinsic value of the tree,
    [|r0| + N |dx| + |strike|], compounded over the maturity at the largest
    rate, [|r0| + N |dx|], where [dx = sigma * sqrt (T / N)]. *)
Theorem price_option_nonneg
    (r0 a sigma T : R) (N : Z) (option_type : string) (strike : R)
    (barrier_type : option string) (barrier : R)
    (is_barrier is_bermudan is_call : bool) :
  (1 <= N)%Z -> 0 <= T ->
  exists price,
    price_option r0 a sigma T N option_type strike barrier_type barrier
      is_barrier is_bermudan is_call = Ok price /\
    0 <= price /\
    price <= exp (T * (Rabs r0 + IZR N * Rabs (sigma * sqrt (T / IZR N))))
             * (Rabs r0 + IZR N * Rabs (sigma * sqrt (T / IZR N)) + Rabs strike).
Proof.
  intros HN HT. eexists. split; [now apply price_option_value |].
  split; [apply lattice_value_nonneg |].
  assert (HN0 : 0 < IZR N) by (apply IZR_lt; lia).
  assert (Hdt : 0 <= T / IZR N).
  { unfold Rdiv. pose proof (Rinv_0_lt_compat _ HN0). nra. }
  pose proof (lattice_value_le r0 (sigma * sqrt (T / IZR N)) (T / IZR N) strike barrier
                barrier_type is_barrier is_bermudan is_call (Z.to_nat N) (Z.to_nat N)
                O O Hdt ltac:(lia) ltac:(lia)) as Hle.
  rewrite INR_IZR_INZ, Z2Nat.id in Hle by lia.
  replace (IZR N * (T / IZR N)
           * (Rabs r0 + IZR N * Rabs (sigma * sqrt (T / IZR N))))
    with (T * (Rabs r0 + IZR N * Rabs (sigma * sqrt (T / IZR N)))) in Hle
    by (field; lra).
  exact Hle.
Qed.

Lemma price_option_nonneg_witness :
  (1 <= 2)%Z /\ 0 <= 1 /\
  exists price,
    price_option (3 / 100) (1 / 10) (1 / 100) 1 2 "Bermudan" (3 / 100)
      (Some "Up Out"%string) (4 / 100) true true false = Ok price /\
    0 <= price /\
    price <= exp (1 * (Rabs (3 / 100) + IZR 2 * Rabs (1 / 100 * sqrt (1 / IZR 2))))
             * (Rabs (3 / 100) + IZR 2 * Rabs (1 / 100 * sqrt (1 / IZR 2))
                + Rabs (3 / 100)).
Proof.
  split; [lia |]. split; [lra |].
  apply (price_option_nonneg (3 / 100) (1 / 10) (1 / 100) 1 2 "Bermudan" (3 / 100)
           (Some "Up Out"%string) (4 / 100) true true false); [lia | lra].
Defined.

(** C6: all other arguments equal, the price with Bermudan exercise
    ([is_bermudan = true]) is at least the price with European exercise
    ([is_bermudan = false]), for every [N >= 1] and [T >= 0], the calls that
    return a price. *)
Theorem bermudan_price_ge_european
    (r0 a sigma T : R) (N : Z) (option_type : string) (strike : R)
    (barrier_type : option string) (barrier : R) (is_barrier is_call : bool) :
  (1 <= N)%Z -> 0 <= T ->
  exists european bermudan,
    price_option r0 a sigma T N option_type strike barrier_type barrier
      is_barrier false is_call = Ok european /\
    price_option r0 a sigma T N option_type strike barrier_type barrier
      is_barrier true is_call = Ok bermudan /\
    european <= bermudan.
Proof.
  intros HN _. do 2 eexists.
  split; [now apply price_option_value |].
  split; [now apply price_option_value |].
  apply lattice_value_bermudan.
Qed.

Lemma bermudan_price_ge_european_witness :
  (1 <= 2)%Z /\ 0 <= 1 /\
  exists european bermudan,
    price_option (3 / 100) (1 / 10) (1 / 100) 1 2 "European" (3 / 100)
      (Some "Down Out"%string) (2 / 100) true false true = Ok european /\
    price_option (3 / 100) (1 / 10) (1 / 100) 1 2 "European" (3 / 100)
      (Some "Down Out"%string) (2 / 100) true true true = Ok bermudan /\
    european <= bermudan.
Proof.
  split; [lia |]. split; [lra |].
  apply (bermudan_price_ge_european (3 / 100) (1 / 10) (1 / 100) 1 2 "European"
           (3 / 100) (Some "Down Out"%string) (2 / 100) true true); [lia | lra].
Defined.

(** C7: all other arguments equal, the price with a barrier, of any type
    and at any level (so for each of Down In, Up In, Down Out and Up Out),
    is at most the price with no barrier, for every [N >= 1] and [T >= 0],
    the calls that return a price. *)
Theorem barrier_price_le_no_barrier
    (r0 a sigma T : R) (N : Z) (option_type : string) (strike : R)
    (barrier_type : string) (barrier barrier' : R) (is_bermudan is_call : bool) :
  (1 <= N)%Z -> 0 <= T ->
  exists with_barrier no_barrier,
    price_option r0 a sigma T N option_type strike (Some barrier_type) barrier
      true is_bermudan is_call = Ok with_barrier /\
    price_option r0 a sigma T N option_type strike None barrier'
      false is_bermudan is_call = Ok no_barrier /\
    with_barrier <= no_barrier.
Proof.
  intros HN _. do 2 eexists.
  split; [now apply price_option_value |].
  split; [now apply price_option_value |].
  apply lattice_value_barrier.
Qed.

Lemma barrier_price_le_no_barrier_witness :
  (1 <= 2)%Z /\ 0 <= 1 /\
  exists with_barrier no_barrier,
    price_option (3 / 100) (1 / 10) (1 / 100) 1 2 "European" (3 / 100)
      (Some "Up In"%string) (35 / 1000) true false true = Ok with_barrier /\
    price_option (3 / 100) (1 / 10) (1 / 100) 1 2 "European" (3 / 100)
      None (35 / 1000) false false true = Ok no_barrier /\
    with_barrier <= no_barrier.
Proof.
  split; [lia |]. split; [lra |].
  apply (barrier_price_le_no_barrier (3 / 100) (1 / 10) (1 / 100) 1 2 "European"
           (3 / 100) "Up In" (35 / 1000) (35 / 1000) false true); [lia | lra].
Defined.

(** C9: the mean-reversion parameter [a] has no influence: for any two
    values of it, [build_rate_tree] and [price_option] return the same
    result, an exception included. *)
Theorem mean_reversion_unused
    (a1 a2 r0 sigma T : R) (N : Z) (option_type : string) (strike : R)
    (barrier_type : option string) (barrier : R)
    (is_barrier is_bermudan is_call : bool) :
  build_rate_tree r0 a1 sigma T N = build_rate_tree r0 a2 sigma T N /\
  price_option r0 a1 sigma T N option_type strike barrier_type barrier
    is_barrier is_bermudan is_call
  = price_option r0 a2 sigma T N option_type strike barrier_type barrier
      is_barrier is_bermudan is_call.
Proof. split; reflexivity. Qed.

End HullWhiteClaims.

(** ** The Monte Carlo pricer *)

Section MonteCarloFacts.
Import Py MonteCarlo.

Lemma getitem_at {A} (l : list A) (k : Z) (k' : nat) (v : A) :
  index (length l) k = Ok k' -> l !! k' = Some v -> getitem l k = Ok v.
Proof.
  intros Hi Hl. unfold getitem. rewrite Hi. cbn [bind]. now rewrite Hl.
Qed.

Lemma getitem2_at (m : matrix) (rows cols i : nat) (jz : Z) (j : nat) (v : R) :
  shape m rows cols -> index cols jz = Ok j -> cell m i j = Some v ->
  getitem2 m (Z.of_nat i) jz = Ok v.
Proof.
  intros [_ Hall] Hj Hc. unfold cell in Hc.
  destruct (m !! i) as [row |] eqn:Hrow; [| discriminate].
  unfold getitem2. rewrite (getitem_nat m i row Hrow). cbn [bind].
  apply (getitem_at row jz j); [| exact Hc].
  rewrite Forall_lookup in Hall. now rewrite (Hall _ _ Hrow).
Qed.

Lemma setitem2_at (m : matrix) (rows cols i : nat) (jz : Z) (j : nat) (v : R) :
  shape m rows cols -> (i < rows)%nat -> index cols jz = Ok j ->
  setitem2 m (Z.of_nat i) jz v = Ok (update m i j v).
Proof.
  intros Hs Hi Hj.
  destruct (shape_lookup m rows cols i Hs Hi) as (row & Hrow & Hlen).
  unfold setitem2, update. rewrite (getitem_nat m i row Hrow). cbn [bind].
  unfold setitem at 1. rewrite Hlen, Hj. cbn [bind].
  rewrite setitem_nat by (destruct Hs; lia).
  now rewrite Hrow.
Qed.

Lemma index_mirror (c j : nat) :
  (j < c)%nat -> index c (- Z.of_nat j) = Ok (mirror c j).
Proof.
  intros Hj. destruct j as [| j].
  - change (- Z.of_nat 0)%Z with (Z.of_nat 0). now apply index_nat.
  - unfold mirror. apply index_neg. lia.
Qed.

Lemma normal_advance (g : rng) (k : nat) :
  normal (advance g k) = (tape g (pos g + k)%nat, advance g (S k)).
Proof.
  unfold normal, advance. cbn [tape pos]. do 2 f_equal. lia.
Qed.

Lemma advance_0 (g : rng) : advance g 0 = g.
Proof. destruct g as [t p]. unfold advance. cbn [tape pos]. f_equal. lia. Qed.

Lemma advance_advance (g : rng) (a b : nat) :
  advance (advance g a) b = advance g (a + b).
Proof. unfold advance. cbn [tape pos]. f_equal. lia. Qed.

(** *** The initial matrix *)

Lemma shape_initial_paths (S : R) (n c : nat) : shape (initial_paths S n c) (Datatypes.S n) c.
Proof.
  unfold initial_paths. split.
  - now rewrite length_insert, length_replicate.
  - apply Forall_insert.
    + apply Forall_replicate, length_replicate.
    + apply length_replicate.
Qed.

Lemma initial_paths_row0 (S : R) (n c : nat) :
  initial_paths S n c !! O = Some (replicate c S).
Proof.
  unfold initial_paths. apply list_lookup_insert_eq.
  rewrite length_replicate. lia.
Qed.

Lemma cell_row0 (m : matrix) (S : R) (c j : nat) :
  m !! O = Some (replicate c S) -> (j < c)%nat -> cell m 0 j = Some S.
Proof.
  intros Hrow Hj. unfold cell. rewrite Hrow. now apply lookup_replicate_2.
Qed.

Lemma np_zeros_ok (rows cols : Z) :
  (0 <= rows)%Z -> (0 <= cols)%Z ->
  np_zeros rows cols = Ok (replicate (Z.to_nat rows) (replicate (Z.to_nat cols) 0)).
Proof.
  intros Hr Hc. unfold np_zeros.
  replace (rows <? 0)%Z with false by (symmetry; apply Z.ltb_ge; lia).
  replace (cols <? 0)%Z with false by (symmetry; apply Z.ltb_ge; lia).
  reflexivity.
Qed.

Lemma fill_row_zeros (S : R) (n c : nat) :
  fill_row (replicate (Datatypes.S n) (replicate c 0)) 0 S = Ok (initial_paths S n c).
Proof.
  unfold fill_row. change 0%Z with (Z.of_nat 0).
  rewrite (getitem_nat _ O (replicate c 0)) by reflexivity.
  cbn [bind]. rewrite setitem_nat by (rewrite length_replicate; lia).
  now rewrite length_replicate.
Qed.

(** *** The path loop of the control-variate simulator *)

(** One pass of the inner loop fills column [j] with the path that starts
    from the column's row-0 entry and follows the next [n] draws; the other
    columns are left as they were. *)
Lemma gbm_column (dt r sigma : R) (n c j : nat) (m : matrix) (g : rng) (x0 : R) :
  shape m (S n) c -> (j < c)%nat -> cell m 0 j = Some x0 ->
  exists m',
    for_each (range (Z.of_nat n)) (fun i '(paths, g) =>
        let '(random, g) := normal g in
        do x <- getitem2 paths i (Z.of_nat j) ;;
        do paths <- setitem2 paths (i + 1) (Z.of_nat j) (gbm_step dt r sigma x random) ;;
        Ok (paths, g)) (m, g)
    = Ok (m', advance g n) /\
    shape m' (S n) c /\
    (forall i, (i <= n)%nat ->
       cell m' i j = Some (gbm x0 dt r sigma (fun k => tape g (pos g + k)%nat) i)) /\
    (forall i j', j' <> j -> cell m' i j' = cell m i j').
Proof.
  intros Hs Hj H0.
  match goal with
  | |- context [for_each _ ?body _] =>
      destruct (for_range (matrix * rng)
        (fun k s => snd s = advance g k /\ shape (fst s) (S n) c /\
           (forall i, (i <= k)%nat ->
              cell (fst s) i j = Some (gbm x0 dt r sigma (fun q => tape g (pos g + q)%nat) i)) /\
           (forall i j', j' <> j -> cell (fst s) i j' = cell m i j'))
        body (Z.of_nat n) (m, g)) as ([m' g'] & Hrun & Hg & Hs' & Hcol & Hrest)
  end.
  - cbn [fst snd]. split; [now rewrite advance_0 |]. split; [exact Hs |]. split.
    + intros i Hi. replace i with O by lia. exact H0.
    + reflexivity.
  - rewrite Nat2Z.id. intros k [mk gk] Hk (Hg & Hsk & Hcol & Hrest).
    cbn [fst snd] in *. subst gk. rewrite normal_advance.
    rewrite (getitem2_cell mk k j _ (Hcol k (Nat.le_refl k))). cbn [bind].
    replace (Z.of_nat k + 1)%Z with (Z.of_nat (S k)) by lia.
    rewrite (setitem2_update mk (S n) c (S k) j) by (exact Hsk || lia).
    cbn [bind]. eexists. split; [reflexivity |]. cbn [fst snd].
    split; [reflexivity |]. split; [now apply shape_update |]. split.
    + intros i Hi. destruct (Nat.eq_dec i (S k)) as [-> | Hne].
      * rewrite (cell_update_eq mk (S n) c) by (exact Hsk || lia). reflexivity.
      * rewrite cell_update_ne by (left; congruence). apply Hcol. lia.
    + intros i j' Hj'. rewrite cell_update_ne by (right; congruence). now apply Hrest.
  - rewrite Nat2Z.id in *. cbn [fst snd] in *. subst g'.
    exists m'. repeat split; assumption || apply Hs'.
Qed.

Lemma shape_gbm_matrix (x0 dt r sigma : R) (z : nat -> R) (base n c : nat) :
  shape (gbm_matrix x0 dt r sigma z base n c) (S n) c.
Proof.
  unfold gbm_matrix. split.
  - now rewrite length_map, length_seq.
  - apply Forall_forall. intros row Hrow.
    apply list_elem_of_In, in_map_iff in Hrow as (i & <- & _).
    now rewrite length_map, length_seq.
Qed.

Lemma cell_gbm_matrix (x0 dt r sigma : R) (z : nat -> R) (base n c i j : nat) :
  (i <= n)%nat -> (j < c)%nat ->
  cell (gbm_matrix x0 dt r sigma z base n c) i j
  = Some (gbm x0 dt r sigma (fun k => z (base + j * n + k)%nat) i).
Proof.
  intros Hi Hj. unfold cell, gbm_matrix.
  rewrite lookup_map, lookup_seq_lt by lia. cbn [option_map].
  rewrite lookup_map, lookup_seq_lt by lia. reflexivity.
Qed.

(** The whole loop turns the initial matrix into the matrix of the paths
    that follow consecutive blocks of [n] draws, and advances the generator
    by one draw per path and time step. *)
Lemma gbm_loop_matrix (dt r sigma x0 : R) (n c : nat) (g : rng) :
  gbm_loop dt r sigma (Z.of_nat n) (Z.of_nat c) (initial_paths x0 n c) g
  = Ok (gbm_matrix x0 dt r sigma (tape g) (pos g) n c, advance g (c * n)).
Proof.
  unfold gbm_loop.
  match goal with
  | |- context [for_each _ ?body _] =>
      destruct (for_range (matrix * rng)
        (fun k s => snd s = advance g (k * n) /\ shape (fst s) (S n) c /\
           (forall i j, (i <= n)%nat -> (j < k)%nat ->
              cell (fst s) i j
              = Some (gbm x0 dt r sigma (fun q => tape g (pos g + j * n + q)%nat) i)) /\
           (forall j, (k <= j < c)%nat -> cell (fst s) 0 j = Some x0))
        body (Z.of_nat c) (initial_paths x0 n c, g))
        as ([m' g'] & Hrun & Hg & Hs' & Hcol & _)
  end.
  - cbn [fst snd]. split; [now rewrite advance_0 |].
    split; [apply shape_initial_paths |]. split.
    + intros i j _ Hj. lia.
    + intros j Hj. apply (cell_row0 _ x0 c); [apply initial_paths_row0 | lia].
  - rewrite Nat2Z.id. intros k [mk gk] Hk (Hg & Hsk & Hcol & Hrow0).
    cbn [fst snd] in *. subst gk.
    destruct (gbm_column dt r sigma n c k mk (advance g (k * n)) x0 Hsk Hk)
      as (m1 & -> & Hs1 & Hc1 & Hr1); [apply Hrow0; lia |].
    eexists. split; [reflexivity |]. cbn [fst snd].
    split; [rewrite advance_advance; f_equal; lia |].
    split; [exact Hs1 |]. split.
    + intros i j Hi Hj. destruct (Nat.eq_dec j k) as [-> | Hne].
      * rewrite Hc1 by exact Hi. reflexivity.
      * rewrite Hr1 by exact Hne. apply Hcol; lia.
    + intros j Hj. rewrite Hr1 by lia. apply Hrow0. lia.
  - rewrite Nat2Z.id in *. cbn [fst snd] in *. subst g'. rewrite Hrun.
    do 2 f_equal. apply (matrix_ext _ _ (S n) c); [exact Hs' | apply shape_gbm_matrix |].
    intros i j Hi Hj. rewrite Hcol by lia. now rewrite cell_gbm_matrix by lia.
Qed.

Lemma getitem_gbm_matrix_last (x0 dt r sigma : R) (z : nat -> R) (base n c : nat) :
  getitem (gbm_matrix x0 dt r sigma z base n c) (-1)
  = Ok (terminal_row x0 dt r sigma z base n c).
Proof.
  apply (getitem_last _ n).
  - apply shape_gbm_matrix.
  - unfold gbm_matrix. rewrite lookup_map, lookup_seq_lt by lia. reflexivity.
Qed.

Lemma gbm_matrix_row0 (x0 dt r sigma : R) (z : nat -> R) (base n c : nat) :
  gbm_matrix x0 dt r sigma z base n c !! O = Some (replicate c x0).
Proof.
  unfold gbm_matrix. rewrite lookup_map, lookup_seq_lt by lia. cbn [option_map gbm].
  f_equal. apply list_eq. intros j.
  destruct (Nat.lt_ge_cases j c) as [Hj | Hj].
  - rewrite lookup_map, lookup_seq_lt by exact Hj. cbn [option_map].
    symmetry. now apply lookup_replicate_2.
  - rewrite !lookup_ge_None_2; [reflexivity | |].
    + rewrite length_replicate. lia.
    + rewrite length_map, length_seq. lia.
Qed.

(** *** The control coefficient *)

Lemma np_sum_replicate (c : nat) (x : R) : np_sum (replicate c x) = INR c * x.
Proof.
  unfold np_sum. induction c as [| c IH].
  - cbn. lra.
  - rewrite S_INR. cbn [replicate foldr]. rewrite IH. lra.
Qed.

Lemma np_mean_replicate (c : nat) (x : R) :
  (0 < c)%nat -> np_mean (replicate c x) = x.
Proof.
  intros Hc. unfold np_mean. rewrite np_sum_replicate, length_replicate.
  field. apply not_0_INR. lia.
Qed.

(** A constant row has no deviation from its mean. *)
Lemma center_constant (c : nat) (x : R) :
  map (fun v => v - np_mean (replicate c x)) (replicate c x) = replicate c 0.
Proof.
  destruct c as [| c]; [reflexivity |].
  rewrite np_mean_replicate by lia.
  change (map ?f ?l) with (f <$> l). rewrite fmap_replicate.
  f_equal. lra.
Qed.

Lemma np_dot_zeros (a : list R) (c : nat) : np_dot a (replicate c 0) = 0.
Proof.
  unfold np_dot, np_sum. revert a. induction c as [| c IH]; intros [| x a];
    cbn [replicate zip_with foldr]; try reflexivity.
  rewrite IH. lra.
Qed.

Lemma getitem2_1_0 (m : matrix) (v : R) :
  cell m 1 0 = Some v -> getitem2 m 1 0 = Ok v.
Proof. exact (getitem2_cell m 1 0 v). Qed.

(** The entry [[1, 0]] of [np.cov(paths_1, payoffs_1)] is the covariance of
    the rows 1 and 0 of [paths_1].  Row 0 holds the initial price in every
    column, so the entry is zero, and with it the coefficient: the payoffs
    do not enter. *)
Lemma control_coefficient_constant_row0
    (option S r sigma T x0 : R) (paths_1 : matrix) (n c : nat) :
  (1 <= n)%nat -> shape paths_1 (Datatypes.S n) c ->
  paths_1 !! O = Some (replicate c x0) ->
  control_coefficient option S r sigma T paths_1 = Ok 0.
Proof.
  intros Hn Hs Hrow0. unfold control_coefficient.
  destruct (shape_lookup paths_1 (Datatypes.S n) c n Hs) as (lastrow & Hlast & Hlen);
    [lia |].
  rewrite (getitem_last paths_1 n lastrow (proj1 Hs) Hlast).
  cbn [bind]. unfold np_cov.
  destruct paths_1 as [| row0 rest]; [discriminate |].
  injection Hrow0 as ->.
  assert (Hcheck : forallb (fun row => Nat.eqb (length row)
                                (length (payoff_row option lastrow)))
                     (replicate c x0 :: rest) = true).
  { apply forallb_forall. intros row Hin. apply Nat.eqb_eq.
    unfold payoff_row. rewrite length_map, Hlen.
    destruct Hs as [_ Hall]. rewrite Forall_forall in Hall.
    apply Hall. now apply list_elem_of_In. }
  rewrite Hcheck. cbn [bind].
  assert (Hrest : exists X1 Xs,
             map (fun row => map (fun v => v - np_mean row) row)
                 (rest ++ [payoff_row option lastrow]) = X1 :: Xs).
  { destruct (map _ (rest ++ _)) as [| X1 Xs] eqn:E; [| eauto].
    apply (f_equal length) in E. rewrite length_map, length_app in E.
    cbn in E. lia. }
  destruct Hrest as (X1 & Xs & HX).
  cbn [app map]. rewrite center_constant, HX. cbn [map].
  erewrite getitem2_1_0 by reflexivity.
  cbn [bind]. f_equal. rewrite np_dot_zeros. unfold Rdiv. lra.
Qed.

(** *** The control-variate simulator, in closed form *)

Lemma paths_con_explicit (option S r sigma T : R) (n nsim nopti : nat) (g : rng) :
  (1 <= n)%nat ->
  paths_con option S r sigma T (Z.of_nat n) (Z.of_nat nsim) (Z.of_nat nopti) g
  = (do c <- control_coefficient option S r sigma T
               (gbm_matrix S (T / IZR (Z.of_nat n)) r sigma (tape g) (pos g) n nopti) ;;
     Ok (gbm_matrix S (T / IZR (Z.of_nat n)) r sigma (tape g) (pos g + nopti * n)%nat n nsim,
         control_variate_mean option S r T c (S * exp (r * T))
           (terminal_row S (T / IZR (Z.of_nat n)) r sigma (tape g)
              (pos g + nopti * n)%nat n nsim),
         advance g (nopti * n + nsim * n))).
Proof.
  intros Hn. unfold paths_con, truediv.
  replace (Z.of_nat n =? 0)%Z with false by (symmetry; apply Z.eqb_neq; lia).
  cbn [bind]. rewrite !np_zeros_ok by lia. cbn [bind].
  replace (Z.to_nat (Z.of_nat n + 1)) with (Datatypes.S n) by lia.
  rewrite !Nat2Z.id, !fill_row_zeros. cbn [bind].
  rewrite gbm_loop_matrix. cbn [bind].
  destruct (control_coefficient _ _ _ _ _ _) as [c | e]; cbn [bind]; [| reflexivity].
  rewrite gbm_loop_matrix. cbn [bind advance tape pos].
  rewrite getitem_gbm_matrix_last. cbn [bind].
  do 2 f_equal. unfold advance. cbn [tape pos]. f_equal. lia.
Qed.

(** *** The path loop of the antithetic simulator *)

Lemma anti_indices_range (Nsim : Z) : anti_indices Nsim = range Nsim.
Proof. unfold anti_indices. change (1 / 2)%Z with 0%Z. now rewrite Z.add_0_r. Qed.

Lemma mirror_lt (c j : nat) : (j < c)%nat -> (mirror c j < c)%nat.
Proof. destruct j; cbn [mirror]; lia. Qed.

Lemma mirror_pos (c j : nat) : (j < c)%nat -> j <> O -> mirror c j <> O.
Proof. destruct j; cbn [mirror]; lia. Qed.

(** One pass of the inner loop for the path index [j].  Only the rows from
    1 on are written, in the columns [j] and [-j].  For [j = 0] the two
    columns are the same one: at each step the second write replaces the
    first, so that column 0 follows the negated draws. *)
Lemma anti_column (dt r sigma : R) (n c j : nat) (m : matrix) (g : rng) :
  shape m (S n) c -> (j < c)%nat ->
  exists m',
    for_each (range (Z.of_nat n)) (fun i '(paths, g) =>
        let '(random, g) := normal g in
        do x <- getitem2 paths i (Z.of_nat j) ;;
        do paths <- setitem2 paths (i + 1) (Z.of_nat j)
          (x * exp (dt * (r - 0.5 * sigma ^ 2) + sigma * sqrt dt * random)) ;;
        do y <- getitem2 paths i (- Z.of_nat j) ;;
        do paths <- setitem2 paths (i + 1) (- Z.of_nat j)
          (y * exp (dt * (r - 0.5 * sigma ^ 2) - sigma * sqrt dt * random)) ;;
        Ok (paths, g)) (m, g)
    = Ok (m', advance g n) /\
    shape m' (S n) c /\
    m' !! O = m !! O /\
    (j <> O -> forall i, cell m' i 0 = cell m i 0) /\
    (j = O -> forall i, (i < n)%nat ->
       exists x, cell m' i 0 = Some x /\
         cell m' (S i) 0
         = Some (x * exp (dt * (r - 0.5 * sigma ^ 2)
                          - sigma * sqrt dt * tape g (pos g + i)%nat))).
Proof.
  intros Hs Hj.
  match goal with
  | |- context [for_each _ ?body _] =>
      destruct (for_range (matrix * rng)
        (fun k s => snd s = advance g k /\ shape (fst s) (S n) c /\
           fst s !! O = m !! O /\
           (j <> O -> forall i, cell (fst s) i 0 = cell m i 0) /\
           (j = O -> forall i, (i < k)%nat ->
              exists x, cell (fst s) i 0 = Some x /\
                cell (fst s) (S i) 0
                = Some (x * exp (dt * (r - 0.5 * sigma ^ 2)
                                 - sigma * sqrt dt * tape g (pos g + i)%nat))))
        body (Z.of_nat n) (m, g)) as ([m' g'] & Hrun & Hg & Hs' & Hrow & Hkeep & Hcol)
  end.
  - cbn [fst snd]. split; [now rewrite advance_0 |]. split; [exact Hs |].
    split; [reflexivity |]. split; [reflexivity |]. intros _ i Hi. lia.
  - rewrite Nat2Z.id. intros k [mk gk] Hk (Hg & Hsk & Hrow & Hkeep & Hcol).
    cbn [fst snd] in *. subst gk. rewrite normal_advance.
    destruct (cell_is_Some mk (S n) c k j Hsk) as (x & Hx); [lia | exact Hj |].
    rewrite (getitem2_cell mk k j x Hx). cbn [bind].
    replace (Z.of_nat k + 1)%Z with (Z.of_nat (S k)) by lia.
    rewrite (setitem2_update mk (S n) c (S k) j) by (exact Hsk || lia).
    cbn [bind].
    set (m1 := update mk (S k) j _).
    assert (Hs1 : shape m1 (S n) c) by (now apply shape_update).
    pose proof (mirror_lt c j Hj) as Hmj.
    destruct (cell_is_Some m1 (S n) c k (mirror c j) Hs1) as (y & Hy); [lia | exact Hmj |].
    rewrite (getitem2_at m1 (S n) c k _ (mirror c j) y Hs1 (index_mirror c j Hj) Hy).
    cbn [bind].
    rewrite (setitem2_at m1 (S n) c (S k) _ (mirror c j))
      by (exact Hs1 || lia || now apply index_mirror).
    cbn [bind]. eexists. split; [reflexivity |]. cbn [fst snd].
    split; [reflexivity |]. split; [now apply shape_update |].
    split; [| split].
    + unfold m1. now rewrite !lookup_update_ne by lia.
    + intros Hj0 i. rewrite cell_update_ne by (right; now apply mirror_pos).
      unfold m1. rewrite cell_update_ne by (right; exact Hj0). now apply Hkeep.
    + intros -> i Hi. cbn [mirror] in *.
      destruct (Nat.eq_dec i k) as [-> | Hne].
      * exists y. split.
        -- rewrite cell_update_ne by (left; lia). exact Hy.
        -- now rewrite (cell_update_eq m1 (S n) c) by (exact Hs1 || lia).
      * destruct (Hcol eq_refl i) as (x' & Hx1 & Hx2); [lia |].
        exists x'. unfold m1. rewrite !cell_update_ne by (left; lia).
        now split.
  - rewrite Nat2Z.id in *. cbn [fst snd] in *. subst g'. exists m'.
    split; [exact Hrun |]. split; [exact Hs' |]. split; [exact Hrow |].
    split; [exact Hkeep | exact Hcol].
Qed.

(** The whole loop: every path index in [range(Nsim)] takes [n] draws; row
    0 is never written; column 0 is written in the first pass only. *)
Lemma anti_loop (dt r sigma : R) (n c : nat) (m : matrix) (g : rng) :
  shape m (S n) c ->
  exists m',
    for_each (anti_indices (Z.of_nat c)) (fun j '(paths, g) =>
      for_each (range (Z.of_nat n)) (fun i '(paths, g) =>
          let '(random, g) := normal g in
          do x <- getitem2 paths i j ;;
          do paths <- setitem2 paths (i + 1) j
            (x * exp (dt * (r - 0.5 * sigma ^ 2) + sigma * sqrt dt * random)) ;;
          do y <- getitem2 paths i (- j) ;;
          do paths <- setitem2 paths (i + 1) (- j)
            (y * exp (dt * (r - 0.5 * sigma ^ 2) - sigma * sqrt dt * random)) ;;
          Ok (paths, g))
        (paths, g)) (m, g)
    = Ok (m', advance g (c * n)) /\
    shape m' (S n) c /\
    m' !! O = m !! O /\
    ((1 <= c)%nat -> negated_column0 dt r sigma n g m').
Proof.
  intros Hs. rewrite anti_indices_range.
  match goal with
  | |- context [for_each _ ?body _] =>
      destruct (for_range (matrix * rng)
        (fun k s => snd s = advance g (k * n) /\ shape (fst s) (S n) c /\
           fst s !! O = m !! O /\
           ((1 <= k)%nat -> negated_column0 dt r sigma n g (fst s)))
        body (Z.of_nat c) (m, g)) as ([m' g'] & Hrun & Hg & Hs' & Hrow & Hcol)
  end.
  - cbn [fst snd]. split; [now rewrite advance_0 |]. split; [exact Hs |].
    split; [reflexivity |]. intros H. lia.
  - rewrite Nat2Z.id. intros k [mk gk] Hk (Hg & Hsk & Hrow & Hcol).
    cbn [fst snd] in *. subst gk.
    destruct (anti_column dt r sigma n c k mk (advance g (k * n)) Hsk Hk)
      as (m1 & -> & Hs1 & Hr1 & Hkeep & Hnew).
    eexists. split; [reflexivity |]. cbn [fst snd].
    split; [rewrite advance_advance; f_equal; lia |].
    split; [exact Hs1 |]. split; [now rewrite Hr1 |].
    intros _. destruct (Nat.eq_dec k O) as [-> | Hk0].
    + intros i Hi. destruct (Hnew eq_refl i Hi) as (x & Hx1 & Hx2).
      exists x. split; [exact Hx1 |]. rewrite Hx2.
      unfold advance. cbn [tape pos].
      now replace (pos g + 0 * n + i)%nat with (pos g + i)%nat by lia.
    + intros i Hi. destruct (Hcol ltac:(lia) i Hi) as (x & Hx1 & Hx2).
      exists x. rewrite !Hkeep by exact Hk0. now split.
  - rewrite Nat2Z.id in *. cbn [fst snd] in *. subst g'. exists m'.
    split; [exact Hrun |]. split; [exact Hs' |]. split; [exact Hrow | exact Hcol].
Qed.

(** [paths_anti] returns for every positive number of steps; it has read
    one draw per path index of [range(Nsim)] and time step. *)
Lemma paths_anti_run (option S r sigma T : R) (n c : nat) (g : rng) :
  (1 <= n)%nat ->
  exists paths mean,
    paths_anti option S r sigma T (Z.of_nat n) (Z.of_nat c) g
    = Ok (paths, mean, advance g (c * n)) /\
    shape paths (Datatypes.S n) c /\
    paths !! O = Some (replicate c S) /\
    ((1 <= c)%nat -> negated_column0 (T / IZR (Z.of_nat n)) r sigma n g paths).
Proof.
  intros Hn. unfold paths_anti, truediv.
  replace (Z.of_nat n =? 0)%Z with false by (symmetry; apply Z.eqb_neq; lia).
  cbn [bind]. rewrite np_zeros_ok by lia. cbn [bind].
  replace (Z.to_nat (Z.of_nat n + 1)) with (Datatypes.S n) by lia.
  rewrite Nat2Z.id, fill_row_zeros. cbn [bind].
  destruct (anti_loop (T / IZR (Z.of_nat n)) r sigma n c (initial_paths S n c) g
              (shape_initial_paths S n c)) as (paths & -> & Hs & Hrow & Hcol).
  cbn [bind].
  destruct (shape_lookup paths (Datatypes.S n) c n Hs) as (lastrow & Hlast & _); [lia |].
  rewrite (getitem_last paths n lastrow (proj1 Hs) Hlast).
  cbn [bind]. do 2 eexists. split; [reflexivity |].
  split; [exact Hs |]. split; [| exact Hcol].
  rewrite Hrow. apply initial_paths_row0.
Qed.

(** [paths_con] returns for every positive number of steps: the pricing
    paths in closed form, and the mean with the coefficient computed from
    the auxiliary paths. *)
Lemma paths_con_run (option S r sigma T : R) (n nsim nopti : nat) (g : rng) :
  (1 <= n)%nat ->
  control_coefficient option S r sigma T
    (gbm_matrix S (T / IZR (Z.of_nat n)) r sigma (tape g) (pos g) n nopti) = Ok 0 /\
  paths_con option S r sigma T (Z.of_nat n) (Z.of_nat nsim) (Z.of_nat nopti) g
  = Ok (gbm_matrix S (T / IZR (Z.of_nat n)) r sigma (tape g) (pos g + nopti * n)%nat n nsim,
        np_mean
          (map (fun S_T => Rmax (option * (S_T - K)) 0 * exp (- r * T)
                           + 0 * (S - S * exp (r * T)))
             (terminal_row S (T / IZR (Z.of_nat n)) r sigma (tape g)
                (pos g + nopti * n)%nat n nsim)),
        advance g (nopti * n + nsim * n)).
Proof.
  intros Hn.
  assert (Hc : control_coefficient option S r sigma T
                 (gbm_matrix S (T / IZR (Z.of_nat n)) r sigma (tape g) (pos g) n nopti)
               = Ok 0).
  { apply (control_coefficient_constant_row0 _ _ _ _ _ S _ n nopti Hn).
    - apply shape_gbm_matrix.
    - apply gbm_matrix_row0. }
  split; [exact Hc |].
  rewrite paths_con_explicit by exact Hn. rewrite Hc. cbn [bind].
  unfold control_variate_mean, payoff_row. now rewrite !map_map.
Qed.

(** *** Worked example: unit volatility and maturity, one step *)

Lemma gbm_step_unit (x z : R) : gbm_step (1 / 1) (1 / 2) 1 x z = x * exp z.
Proof.
  unfold gbm_step. replace (1 / 1) with 1 by lra. rewrite sqrt_1.
  do 2 f_equal. lra.
Qed.

Lemma exp_ln_2 : exp (ln 2) = 2.
Proof. apply exp_ln. lra. Qed.

Lemma exp_1_gt_2 : 2 < exp 1.
Proof. pose proof (exp_ineq1 1 ltac:(lra)). lra. Qed.

Lemma terminal_row_aux_example :
  terminal_row 110 (1 / 1) (1 / 2) 1 sample_draws 0 1 2 = [110; 220].
Proof.
  unfold terminal_row. cbn [seq map gbm]. rewrite !gbm_step_unit.
  cbn [Nat.add Nat.mul sample_draws]. rewrite exp_0, exp_ln_2.
  f_equal; [lra | f_equal; lra].
Qed.

Lemma spec_control_coefficient_example :
  spec_control_coefficient 1 110 (1 / 2) 1 1 [110; 220]
  = - 6050 / (12100 * exp 1 * (exp 1 - 1)).
Proof.
  unfold spec_control_coefficient, sample_cov, lognormal_var, payoff_row, np_mean,
    np_sum, K.
  cbn [map zip_with foldr length INR].
  replace (1 * (110 - 110)) with 0 by lra.
  replace (1 * (220 - 110)) with 110 by lra.
  rewrite (Rmax_left 0 0) by lra. rewrite (Rmax_left 110 0) by lra.
  replace (2 * (1 / 2) * 1) with 1 by lra.
  replace (1 * 1 ^ 2) with 1 by lra.
  f_equal; [| lra]. f_equal. field.
Qed.

Lemma spec_control_coefficient_example_neg :
  spec_control_coefficient 1 110 (1 / 2) 1 1 [110; 220] < 0.
Proof.
  rewrite spec_control_coefficient_example.
  pose proof exp_1_gt_2 as He.
  assert (Hv : 0 < 12100 * exp 1 * (exp 1 - 1)) by nra.
  pose proof (Rinv_0_lt_compat _ Hv) as Hi.
  unfold Rdiv. nra.
Qed.

End MonteCarloFacts.

(** *** Properties of the Monte Carlo pricer *)

Section MonteCarloClaims.
Import Py MonteCarlo.

Lemma length_range (n : Z) : length (range n) = Z.to_nat n.
Proof. unfold range. now rewrite length_map, length_seq. Qed.

Lemma anti_indices_length (Nsim : Z) : length (anti_indices Nsim) = Z.to_nat Nsim.
Proof. rewrite anti_indices_range. apply length_range. Qed.

(** C1 (the code departs from the claim): at the script's own call,
    [Nsim = 500] and [Nsteps = 500], the path loop of [paths_anti] runs over
    [500] indices, not over [floor((500+1)/2) = 250], and the simulator reads
    [500 * 500] draws: [Nsim+1//2] is [Nsim + (1//2)], that is [Nsim]. *)
Theorem paths_anti_loop_runs_over_all_paths :
  length (anti_indices 500) = 500%nat /\
  Z.to_nat ((500 + 1) / 2) = 250%nat /\
  forall g, exists paths mean,
    paths_anti 1 100 (3 / 100) (25 / 100) (1 / 12) 500 500 g
    = Ok (paths, mean, advance g (500 * 500)).
Proof.
  split; [| split].
  - rewrite anti_indices_length. reflexivity.
  - reflexivity.
  - intros g.
    destruct (paths_anti_run 1 100 (3 / 100) (25 / 100) (1 / 12) 500 500 g)
      as (paths & mean & Hrun & _); [lia |].
    exists paths, mean. exact Hrun.
Qed.



(** C3 (the code departs from the claim): with [S = K = 110], [r = 1/2],
    [sigma = T = 1], one step and the draws [0] and [ln 2], the two
    auxiliary paths end at [110] and [220], with payoffs [0] and [110]; the
    coefficient [-Cov(S_T, payoff)/Var(S_T)] of the claim is negative, and
    the coefficient the code computes is [0].  [np.cov(paths_1, payoffs_1)]
    takes every row of [paths_1] as a variable, so its entry [[1, 0]] is the
    covariance of the prices after one step and the initial prices, which are
    constant. *)
Theorem control_coefficient_is_not_the_spec_coefficient :
  exists paths_1 g1,
    gbm_loop (1 / 1) (1 / 2) 1 1 2 (initial_paths 110 1 2)
      {| tape := sample_draws; pos := 0 |} = Ok (paths_1, g1) /\
    getitem paths_1 (-1) = Ok [110; 220] /\
    control_coefficient 1 110 (1 / 2) 1 1 paths_1 = Ok 0 /\
    spec_control_coefficient 1 110 (1 / 2) 1 1 [110; 220] < 0.
Proof.
  do 2 eexists.
  split; [apply (gbm_loop_matrix (1 / 1) (1 / 2) 1 110 1 2) |].
  cbn [tape pos].
  split; [rewrite getitem_gbm_matrix_last; f_equal; apply terminal_row_aux_example |].
  split; [| apply spec_control_coefficient_example_neg].
  apply (control_coefficient_constant_row0 _ _ _ _ _ 110 _ 1 2); [lia | |].
  - apply shape_gbm_matrix.
  - apply gbm_matrix_row0.
Qed.

(** C8: the path matrices returned by [paths_anti] and [paths_con] hold the
    initial price [S] in every column of row 0. *)
Theorem path_matrices_row0
    (option S r sigma T : R) (Nsteps Nsim Nopti : Z) (g : rng) :
  (1 <= Nsteps)%Z -> (0 <= Nsim)%Z -> (0 <= Nopti)%Z ->
  exists paths_a mean_a g_a paths_c mean_c g_c,
    paths_anti option S r sigma T Nsteps Nsim g = Ok (paths_a, mean_a, g_a) /\
    paths_con option S r sigma T Nsteps Nsim Nopti g = Ok (paths_c, mean_c, g_c) /\
    shape paths_a (Z.to_nat (Nsteps + 1)) (Z.to_nat Nsim) /\
    shape paths_c (Z.to_nat (Nsteps + 1)) (Z.to_nat Nsim) /\
    forall j, (j < Z.to_nat Nsim)%nat ->
      cell paths_a 0 j = Some S /\ cell paths_c 0 j = Some S.
Proof.
  intros Hn Hsim Hopti.
  destruct (Z_of_nat_complete Nsteps) as [n ->]; [lia |].
  destruct (Z_of_nat_complete Nsim) as [nsim ->]; [lia |].
  destruct (Z_of_nat_complete Nopti) as [nopti ->]; [lia |].
  replace (Z.to_nat (Z.of_nat n + 1)) with (Datatypes.S n) by lia.
  rewrite !Nat2Z.id.
  destruct (paths_anti_run option S r sigma T n nsim g)
    as (paths_a & mean_a & Hanti & Hsa & Hrow_a & _); [lia |].
  destruct (paths_con_run option S r sigma T n nsim nopti g) as [_ Hcon]; [lia |].
  do 6 eexists.
  split; [exact Hanti |]. split; [exact Hcon |].
  split; [exact Hsa |]. split; [apply shape_gbm_matrix |].
  intros j Hj. split.
  - now apply (cell_row0 _ S nsim).
  - apply (cell_row0 _ S nsim); [apply gbm_matrix_row0 | exact Hj].
Qed.

Lemma path_matrices_row0_witness :
  (1 <= 2)%Z /\ (0 <= 3)%Z /\ (0 <= 2)%Z /\
  exists paths_a mean_a g_a paths_c mean_c g_c,
    paths_anti 1 100 (3 / 100) (25 / 100) (1 / 12) 2 3
      {| tape := sample_draws; pos := 0 |} = Ok (paths_a, mean_a, g_a) /\
    paths_con 1 100 (3 / 100) (25 / 100) (1 / 12) 2 3 2
      {| tape := sample_draws; pos := 0 |} = Ok (paths_c, mean_c, g_c) /\
    shape paths_a (Z.to_nat (2 + 1)) (Z.to_nat 3) /\
    shape paths_c (Z.to_nat (2 + 1)) (Z.to_nat 3) /\
    forall j, (j < Z.to_nat 3)%nat ->
      cell paths_a 0 j = Some 100 /\ cell paths_c 0 j = Some 100.
Proof.
  split; [lia |]. split; [lia |]. split; [lia |].
  apply (path_matrices_row0 1 100 (3 / 100) (25 / 100) (1 / 12) 2 3 2
           {| tape := sample_draws; pos := 0 |}); lia.
Defined.

(** C10: for [Nsim >= 1], column 0 of the matrix returned by [paths_anti]
    is generated by the negated-draw branch alone: it starts at [S], and
    each entry is the one above it times
    [exp(dt*(r - sigma^2/2) - sigma*sqrt(dt)*Z)], [Z] running over the draws
    of the pass for the path index 0 (the first [Nsteps] draws).  In that
    pass [-0] is [0], and at each step the write of the negated branch
    replaces the write of the other branch. *)
Theorem paths_anti_column0_negated_draws
    (option S r sigma T : R) (Nsteps Nsim : Z) (g : rng) :
  (1 <= Nsteps)%Z -> (1 <= Nsim)%Z ->
  exists paths mean g',
    paths_anti option S r sigma T Nsteps Nsim g = Ok (paths, mean, g') /\
    cell paths 0 0 = Some S /\
    forall i, (i < Z.to_nat Nsteps)%nat ->
      exists x, cell paths i 0 = Some x /\
        cell paths (Datatypes.S i) 0
        = Some (x * exp (T / IZR Nsteps * (r - 0.5 * sigma ^ 2)
                         - sigma * sqrt (T / IZR Nsteps) * tape g (pos g + i)%nat)).
Proof.
  intros Hn Hsim.
  destruct (Z_of_nat_complete Nsteps) as [n ->]; [lia |].
  destruct (Z_of_nat_complete Nsim) as [nsim ->]; [lia |].
  rewrite Nat2Z.id.
  destruct (paths_anti_run option S r sigma T n nsim g)
    as (paths & mean & Hanti & _ & Hrow & Hcol); [lia |].
  do 3 eexists. split; [exact Hanti |]. split.
  - apply (cell_row0 _ S nsim); [exact Hrow | lia].
  - apply Hcol. lia.
Qed.

Lemma paths_anti_column0_negated_draws_witness :
  (1 <= 2)%Z /\ (1 <= 3)%Z /\
  exists paths mean g',
    paths_anti 1 100 (3 / 100) (25 / 100) (1 / 12) 2 3
      {| tape := sample_draws; pos := 0 |} = Ok (paths, mean, g') /\
    cell paths 0 0 = Some 100 /\
    forall i, (i < Z.to_nat 2)%nat ->
      exists x, cell paths i 0 = Some x /\
        cell paths (Datatypes.S i) 0
        = Some (x * exp (1 / 12 / IZR 2 * (3 / 100 - 0.5 * (25 / 100) ^ 2)
                         - 25 / 100 * sqrt (1 / 12 / IZR 2)
                           * tape {| tape := sample_draws; pos := 0 |}
                               (pos {| tape := sample_draws; pos := 0 |} + i)%nat)).
Proof.
  split; [lia |]. split; [lia |].
  apply (paths_anti_column0_negated_draws 1 100 (3 / 100) (25 / 100) (1 / 12) 2 3
           {| tape := sample_draws; pos := 0 |}); lia.
Defined.

End MonteCarloClaims.

(** ** Further properties of the lattice pricer *)

Section HullWhiteMore.
Import Py HullWhite.

(** X1: for every step count but zero (and a time step [T/N] that is not
    negative, so that its square root is defined) the builder returns
    [dt = T/N], [dx = sigma * sqrt dt] and a tree of [N + 1] levels (none
    when [N] is negative) whose node [(i, j)] holds [r0 + (2j - i) * dx]. *)
Theorem build_rate_tree_rates (r0 a sigma T : R) (N : Z) :
  N <> 0%Z -> 0 <= T / IZR N ->
  exists tree,
    build_rate_tree r0 a sigma T N
    = Ok (tree, T / IZR N, sigma * sqrt (T / IZR N)) /\
    length tree = Z.to_nat (N + 1) /\
    forall i j, (Z.of_nat i <= N)%Z -> (j <= i)%nat ->
      cell tree i j
      = Some (r0 + IZR (2 * Z.of_nat j - Z.of_nat i) * (sigma * sqrt (T / IZR N))).
Proof.
  intros HN _. eexists. split; [now apply build_rate_tree_lattice |].
  split; [apply lattice_levels |].
  intros i j Hi Hj. now apply cell_lattice.
Qed.

Lemma build_rate_tree_rates_witness :
  (2 <> 0)%Z /\ 0 <= 1 / IZR 2 /\
  exists tree,
    build_rate_tree (3 / 100) (1 / 10) (1 / 100) 1 2
    = Ok (tree, 1 / IZR 2, 1 / 100 * sqrt (1 / IZR 2)) /\
    length tree = Z.to_nat (2 + 1) /\
    forall i j, (Z.of_nat i <= 2)%Z -> (j <= i)%nat ->
      cell tree i j
      = Some (3 / 100 + IZR (2 * Z.of_nat j - Z.of_nat i)
                        * (1 / 100 * sqrt (1 / IZR 2))).
Proof.
  split; [lia |]. split; [lra |].
  apply (build_rate_tree_rates (3 / 100) (1 / 10) (1 / 100) 1 2); [lia | lra].
Defined.

(** X2: the tree recombines and is symmetric about [r0]: an up move followed
    by a down move leads back to the same rate two levels on, and the rates
    of the nodes [j] and [i - j] of a level average to [r0]. *)
Theorem build_rate_tree_recombines (r0 a sigma T : R) (N : Z) :
  N <> 0%Z -> 0 <= T / IZR N ->
  exists tree dt dx,
    build_rate_tree r0 a sigma T N = Ok (tree, dt, dx) /\
    (forall i j, (Z.of_nat i + 2 <= N)%Z -> (j <= i)%nat ->
       cell tree (i + 2) (j + 1) = cell tree i j) /\
    (forall i j x y, (Z.of_nat i <= N)%Z -> (j <= i)%nat ->
       cell tree i j = Some x -> cell tree i (i - j) = Some y ->
       x + y = 2 * r0).
Proof.
  intros HN _. do 3 eexists. split; [now apply build_rate_tree_lattice |]. split.
  - intros i j Hi Hj. rewrite !cell_lattice by lia. unfold rate.
    do 4 f_equal. lia.
  - intros i j x y Hi Hj. rewrite !cell_lattice by lia. unfold rate.
    intros [= <-] [= <-].
    replace (2 * Z.of_nat (i - j) - Z.of_nat i)%Z
      with (- (2 * Z.of_nat j - Z.of_nat i))%Z by lia.
    rewrite opp_IZR. lra.
Qed.

Lemma build_rate_tree_recombines_witness :
  (3 <> 0)%Z /\ 0 <= 1 / IZR 3 /\
  exists tree dt dx,
    build_rate_tree (3 / 100) (1 / 10) (1 / 100) 1 3 = Ok (tree, dt, dx) /\
    (forall i j, (Z.of_nat i + 2 <= 3)%Z -> (j <= i)%nat ->
       cell tree (i + 2) (j + 1) = cell tree i j) /\
    (forall i j x y, (Z.of_nat i <= 3)%Z -> (j <= i)%nat ->
       cell tree i j = Some x -> cell tree i (i - j) = Some y ->
       x + y = 2 * (3 / 100)).
Proof.
  split; [lia |]. split; [lra |].
  apply (build_rate_tree_recombines (3 / 100) (1 / 10) (1 / 100) 1 3); [lia | lra].
Defined.

(** X3: for [N >= 1] and [T >= 0], [price_option] returns the value that backward
    induction gives the root: at maturity a node is worth its intrinsic
    value, before maturity the discounted average of its two successors (or
    the larger of that and the intrinsic value, with Bermudan exercise), and
    in both cases zero when the barrier block knocks the node. *)
Theorem price_option_backward_induction
    (r0 a sigma T : R) (N : Z) (option_type : string) (strike : R)
    (barrier_type : option string) (barrier : R)
    (is_barrier is_bermudan is_call : bool) :
  (1 <= N)%Z -> 0 <= T ->
  price_option r0 a sigma T N option_type strike barrier_type barrier
    is_barrier is_bermudan is_call
  = Ok (lattice_value r0 (sigma * sqrt (T / IZR N)) (T / IZR N)
          strike barrier barrier_type is_barrier is_bermudan is_call (Z.to_nat N) 0 0).
Proof. intros HN _. now rewrite price_option_value. Qed.

Lemma price_option_backward_induction_witness :
  (1 <= 2)%Z /\ 0 <= 1 /\
  price_option (3 / 100) (1 / 10) (1 / 100) 1 2 "Bermudan" (3 / 100)
    (Some "Up Out"%string) (4 / 100) true true false
  = Ok (lattice_value (3 / 100) (1 / 100 * sqrt (1 / IZR 2)) (1 / IZR 2)
          (3 / 100) (4 / 100) (Some "Up Out"%string) true true false (Z.to_nat 2) 0 0).
Proof.
  split; [lia |]. split; [lra |].
  apply (price_option_backward_induction (3 / 100) (1 / 10) (1 / 100) 1 2 "Bermudan"
           (3 / 100) (Some "Up Out"%string) (4 / 100) true true false); [lia | lra].
Defined.

(** X4: without a positive step count [price_option] returns no price:
    [N = 0] raises [ZeroDivisionError] (the division [T / N]), [N = -1]
    raises [IndexError] (the root is read from an empty array) and
    [N <= -2] raises [ValueError] (an array of negative dimensions). *)
Theorem price_option_errors
    (r0 a sigma T : R) (N : Z) (option_type : string) (strike : R)
    (barrier_type : option string) (barrier : R)
    (is_barrier is_bermudan is_call : bool) :
  (N <= 0)%Z ->
  price_option r0 a sigma T N option_type strike barrier_type barrier
    is_barrier is_bermudan is_call
  = Raise (if (N =? 0)%Z then ZeroDivisionError
           else if (N =? -1)%Z then IndexError else ValueError).
Proof. intros HN. now rewrite price_option_nonpositive_raises. Qed.

Lemma price_option_errors_witness :
  (-3 <= 0)%Z /\
  price_option (3 / 100) (1 / 10) (1 / 100) 1 (-3) "European" (3 / 100) None 0
    false false true
  = Raise (if (-3 =? 0)%Z then ZeroDivisionError
           else if (-3 =? -1)%Z then IndexError else ValueError).
Proof.
  split; [lia |].
  apply (price_option_errors (3 / 100) (1 / 10) (1 / 100) 1 (-3) "European"
           (3 / 100) None 0 false false true).
  lia.
Defined.

Lemma Rmax_mono (a b c d : R) : a <= c -> b <= d -> Rmax a b <= Rmax c d.
Proof.
  intros Hac Hbd. apply Rmax_lub.
  - eapply Rle_trans; [exact Hac | apply Rmax_l].
  - eapply Rle_trans; [exact Hbd | apply Rmax_r].
Qed.

Lemma rate_root (r0 dx : R) : rate r0 dx 0 0 = r0.
Proof.
  unfold rate. change (IZR (2 * Z.of_nat 0 - Z.of_nat 0)) with 0. lra.
Qed.

Lemma Rleb_false (x y : R) : y < x -> Rleb x y = false.
Proof. intros H. unfold Rleb. destruct (Rle_dec x y); [lra | reflexivity]. Qed.

Lemma Rleb_true (x y : R) : x <= y -> Rleb x y = true.
Proof. intros H. unfold Rleb. destruct (Rle_dec x y); [reflexivity | lra]. Qed.

Lemma Rgeb_false (x y : R) : x < y -> Rgeb x y = false.
Proof. intros H. unfold Rgeb. destruct (Rge_dec x y); [lra | reflexivity]. Qed.

Lemma Rgeb_true (x y : R) : y <= x -> Rgeb x y = true.
Proof. intros H. unfold Rgeb. destruct (Rge_dec x y); [reflexivity | lra]. Qed.

(** The four barrier rules at a node of rate [r]. *)
Lemma knock_breached (barrier_type : string) (barrier r v : R) :
  (barrier_type = "Down In"%string /\ barrier < r) \/
  (barrier_type = "Up In"%string /\ r < barrier) \/
  (barrier_type = "Down Out"%string /\ r <= barrier) \/
  (barrier_type = "Up Out"%string /\ barrier <= r) ->
  knock true (Some barrier_type) barrier r v = 0.
Proof.
  intros [[-> H] | [[-> H] | [[-> H] | [-> H]]]]; unfold knock; cbn.
  - now rewrite Rleb_false.
  - now rewrite Rgeb_false.
  - now rewrite Rleb_true.
  - now rewrite Rgeb_true.
Qed.

(** X5: the barrier block is applied at the root too, with the rate [r0]:
    whatever happens further on in the tree, the price is zero for a Down In
    barrier below [r0], an Up In barrier above [r0], a Down Out barrier at or
    above [r0] and an Up Out barrier at or below [r0] (for [N >= 1] and
    [T >= 0], so that every rate of the tree is defined). *)
Theorem price_option_zero_when_root_knocked
    (r0 a sigma T : R) (N : Z) (option_type : string) (strike : R)
    (barrier_type : string) (barrier : R) (is_bermudan is_call : bool) :
  (1 <= N)%Z -> 0 <= T ->
  (barrier_type = "Down In"%string /\ barrier < r0) \/
  (barrier_type = "Up In"%string /\ r0 < barrier) \/
  (barrier_type = "Down Out"%string /\ r0 <= barrier) \/
  (barrier_type = "Up Out"%string /\ barrier <= r0) ->
  price_option r0 a sigma T N option_type strike (Some barrier_type) barrier
    true is_bermudan is_call = Ok 0.
Proof.
  intros HN _ Hknock. rewrite price_option_value by exact HN. f_equal.
  destruct (Z.to_nat N) as [| k] eqn:Hk; [lia |].
  cbn [lattice_value]. unfold node_value. rewrite rate_root.
  now apply knock_breached.
Qed.

Lemma price_option_zero_when_root_knocked_witness :
  (1 <= 2)%Z /\ 0 <= 1 /\
  (("Down In" = "Down In")%string /\ 2 / 100 < 3 / 100 \/
   ("Down In" = "Up In")%string /\ 3 / 100 < 2 / 100 \/
   ("Down In" = "Down Out")%string /\ 3 / 100 <= 2 / 100 \/
   ("Down In" = "Up Out")%string /\ 2 / 100 <= 3 / 100) /\
  price_option (3 / 100) (1 / 10) (1 / 100) 1 2 "European" (1 / 100)
    (Some "Down In"%string) (2 / 100) true false true = Ok 0.
Proof.
  assert (H : ("Down In" = "Down In")%string /\ 2 / 100 < 3 / 100 \/
              ("Down In" = "Up In")%string /\ 3 / 100 < 2 / 100 \/
              ("Down In" = "Down Out")%string /\ 3 / 100 <= 2 / 100 \/
              ("Down In" = "Up Out")%string /\ 2 / 100 <= 3 / 100)
    by (left; split; [reflexivity | lra]).
  split; [lia |]. split; [lra |]. split; [exact H |].
  apply (price_option_zero_when_root_knocked (3 / 100) (1 / 10) (1 / 100) 1 2
           "European" (1 / 100) "Down In" (2 / 100) false true);
    [lia | lra | exact H].
Defined.

(** A barrier setting that is switched off, has no type, or has a type that
    is none of the four names, leaves every node as it is. *)
Lemma knock_inactive (is_barrier : bool) (barrier_type : option string)
    (barrier r v : R) :
  is_barrier = false \/ barrier_type = None \/
  (exists bt, barrier_type = Some bt /\ bt <> "Down In"%string /\ bt <> "Up In"%string
              /\ bt <> "Down Out"%string /\ bt <> "Up Out"%string) ->
  knock is_barrier barrier_type barrier r v = v.
Proof.
  intros [-> | [-> | (bt & -> & H1 & H2 & H3 & H4)]].
  - reflexivity.
  - now destruct is_barrier.
  - destruct is_barrier; [| reflexivity]. unfold knock, str_in. cbn [existsb].
    apply String.eqb_neq in H1, H2, H3, H4. now rewrite H1, H2, H3, H4.
Qed.

Lemma lattice_value_inactive (r0 dx dt strike barrier barrier' : R)
    (barrier_type : option string) (is_barrier is_bermudan is_call : bool) (k i j : nat) :
  (forall r v, knock is_barrier barrier_type barrier r v = v) ->
  lattice_value r0 dx dt strike barrier barrier_type is_barrier is_bermudan is_call k i j
  = lattice_value r0 dx dt strike barrier' None false is_bermudan is_call k i j.
Proof.
  intros Hk. revert i j. induction k as [| k IH]; intros i j; cbn [lattice_value].
  - now rewrite Hk.
  - unfold node_value. rewrite Hk, !IH. reflexivity.
Qed.

(** X6: a barrier that is switched off ([is_barrier] false), has no type,
    or has a type string that is none of "Down In", "Up In", "Down Out" and
    "Up Out", is silently ignored: the result, an exception included, is the
    one of the call without barrier. *)
Theorem price_option_ignores_inactive_barrier
    (r0 a sigma T : R) (N : Z) (option_type : string) (strike : R)
    (barrier_type : option string) (barrier barrier' : R)
    (is_barrier is_bermudan is_call : bool) :
  is_barrier = false \/ barrier_type = None \/
  (exists bt, barrier_type = Some bt /\ bt <> "Down In"%string /\ bt <> "Up In"%string
              /\ bt <> "Down Out"%string /\ bt <> "Up Out"%string) ->
  price_option r0 a sigma T N option_type strike barrier_type barrier
    is_barrier is_bermudan is_call
  = price_option r0 a sigma T N option_type strike None barrier'
      false is_bermudan is_call.
Proof.
  intros Hoff. destruct (Z_le_gt_dec N 0) as [HN | HN].
  - now rewrite !price_option_nonpositive_raises.
  - rewrite !price_option_value by lia. f_equal.
    apply lattice_value_inactive. intros r v. now apply knock_inactive.
Qed.

Lemma price_option_ignores_inactive_barrier_witness :
  (true = false \/ Some "down in"%string = None \/
   (exists bt, Some "down in"%string = Some bt /\ bt <> "Down In"%string
               /\ bt <> "Up In"%string /\ bt <> "Down Out"%string
               /\ bt <> "Up Out"%string)) /\
  price_option (3 / 100) (1 / 10) (1 / 100) 1 2 "European" (3 / 100)
    (Some "down in"%string) (2 / 100) true false true
  = price_option (3 / 100) (1 / 10) (1 / 100) 1 2 "European" (3 / 100)
      None 0 false false true.
Proof.
  assert (H : true = false \/ Some "down in"%string = None \/
              (exists bt, Some "down in"%string = Some bt /\ bt <> "Down In"%string
                          /\ bt <> "Up In"%string /\ bt <> "Down Out"%string
                          /\ bt <> "Up Out"%string)).
  { right. right. exists "down in"%string. repeat split; discriminate. }
  split; [exact H |].
  apply (price_option_ignores_inactive_barrier (3 / 100) (1 / 10) (1 / 100) 1 2
           "European" (3 / 100) (Some "down in"%string) (2 / 100) 0 true false true).
  exact H.
Defined.

Lemma intrinsic_value_strike (is_call : bool) (strike1 strike2 r : R) :
  strike1 <= strike2 ->
  if is_call
  then intrinsic_value true strike2 r <= intrinsic_value true strike1 r
  else intrinsic_value false strike1 r <= intrinsic_value false strike2 r.
Proof.
  intros H. unfold intrinsic_value.
  destruct is_call; apply Rmax_mono; lra.
Qed.

Lemma lattice_value_strike_call (r0 dx dt strike1 strike2 barrier : R)
    (barrier_type : option string) (is_barrier is_bermudan : bool) (k i j : nat) :
  strike1 <= strike2 ->
  lattice_value r0 dx dt strike2 barrier barrier_type is_barrier is_bermudan true k i j
  <= lattice_value r0 dx dt strike1 barrier barrier_type is_barrier is_bermudan true k i j.
Proof.
  intros H. revert i j. induction k as [| k IH]; intros i j; cbn [lattice_value].
  - apply knock_mono. exact (intrinsic_value_strike true _ _ _ H).
  - unfold node_value. apply knock_mono.
    pose proof (continuation_value_mono dt (rate r0 dx i j) _ _ _ _
                  (IH (S i) (S j)) (IH (S i) j)) as Hc.
    destruct is_bermudan; [| exact Hc].
    apply Rmax_mono; [exact Hc | exact (intrinsic_value_strike true _ _ _ H)].
Qed.

Lemma lattice_value_strike_put (r0 dx dt strike1 strike2 barrier : R)
    (barrier_type : option string) (is_barrier is_bermudan : bool) (k i j : nat) :
  strike1 <= strike2 ->
  lattice_value r0 dx dt strike1 barrier barrier_type is_barrier is_bermudan false k i j
  <= lattice_value r0 dx dt strike2 barrier barrier_type is_barrier is_bermudan false k i j.
Proof.
  intros H. revert i j. induction k as [| k IH]; intros i j; cbn [lattice_value].
  - apply knock_mono. exact (intrinsic_value_strike false _ _ _ H).
  - unfold node_value. apply knock_mono.
    pose proof (continuation_value_mono dt (rate r0 dx i j) _ _ _ _
                  (IH (S i) (S j)) (IH (S i) j)) as Hc.
    destruct is_bermudan; [| exact Hc].
    apply Rmax_mono; [exact Hc | exact (intrinsic_value_strike false _ _ _ H)].
Qed.

(** X7: all other arguments equal, raising the strike does not raise the
    price of a call and does not lower the price of a put (for [N >= 1] and
    [T >= 0]). *)
Theorem price_option_monotone_in_strike
    (r0 a sigma T : R) (N : Z) (option_type : string) (strike1 strike2 : R)
    (barrier_type : option string) (barrier : R)
    (is_barrier is_bermudan is_call : bool) :
  (1 <= N)%Z -> 0 <= T -> strike1 <= strike2 ->
  exists price1 price2,
    price_option r0 a sigma T N option_type strike1 barrier_type barrier
      is_barrier is_bermudan is_call = Ok price1 /\
    price_option r0 a sigma T N option_type strike2 barrier_type barrier
      is_barrier is_bermudan is_call = Ok price2 /\
    if is_call then price2 <= price1 else price1 <= price2.
Proof.
  intros HN _ Hs. do 2 eexists.
  split; [now apply price_option_value |].
  split; [now apply price_option_value |].
  destruct is_call.
  - now apply lattice_value_strike_call.
  - now apply lattice_value_strike_put.
Qed.

Lemma price_option_monotone_in_strike_witness :
  (1 <= 2)%Z /\ 0 <= 1 /\ 2 / 100 <= 3 / 100 /\
  exists price1 price2,
    price_option (3 / 100) (1 / 10) (1 / 100) 1 2 "Bermudan" (2 / 100)
      (Some "Up Out"%string) (4 / 100) true true true = Ok price1 /\
    price_option (3 / 100) (1 / 10) (1 / 100) 1 2 "Bermudan" (3 / 100)
      (Some "Up Out"%string) (4 / 100) true true true = Ok price2 /\
    if true then price2 <= price1 else price1 <= price2.
Proof.
  split; [lia |]. split; [lra |]. split; [lra |].
  apply (price_option_monotone_in_strike (3 / 100) (1 / 10) (1 / 100) 1 2 "Bermudan"
           (2 / 100) (3 / 100) (Some "Up Out"%string) (4 / 100) true true true);
    [lia | lra | lra].
Defined.

Lemma exp_pow_nat (x : R) (n : nat) : exp x ^ n = exp (INR n * x).
Proof.
  induction n as [| n IH].
  - cbn. rewrite Rmult_0_l. now rewrite exp_0.
  - rewrite S_INR. cbn [pow]. rewrite IH, <- exp_plus. f_equal. lra.
Qed.

Lemma lattice_value_flat (r0 dt strike barrier : R) (barrier_type : option string)
    (is_call : bool) (k i j : nat) :
  lattice_value r0 0 dt strike barrier barrier_type false false is_call k i j
  = exp (- r0 * dt) ^ k * intrinsic_value is_call strike r0.
Proof.
  assert (Hr : forall i j, rate r0 0 i j = r0) by (intros; unfold rate; lra).
  revert i j. induction k as [| k IH]; intros i j; cbn [lattice_value].
  - rewrite Hr. cbn [knock pow]. lra.
  - unfold node_value, continuation_value. rewrite Hr, !IH. cbn [knock pow]. lra.
Qed.

(** X8: zero volatility is not an error.  With [sigma = 0] every node has
    the rate [r0], and the European price without barrier is the intrinsic
    value at [r0] discounted over the whole maturity:
    [exp(-r0 * T) * max(+-(r0 - strike), 0)], for every [N >= 1] and
    [T >= 0]. *)
Theorem price_option_zero_volatility
    (r0 a T : R) (N : Z) (option_type : string) (strike : R)
    (barrier_type : option string) (barrier : R) (is_call : bool) :
  (1 <= N)%Z -> 0 <= T ->
  price_option r0 a 0 T N option_type strike barrier_type barrier
    false false is_call
  = Ok (exp (- r0 * T) * Rmax (if is_call then r0 - strike else strike - r0) 0).
Proof.
  intros HN _. rewrite price_option_value by exact HN. f_equal.
  rewrite Rmult_0_l, lattice_value_flat, exp_pow_nat.
  unfold intrinsic_value. f_equal. f_equal.
  rewrite INR_IZR_INZ, Z2Nat.id by lia.
  field. apply not_0_IZR. lia.
Qed.

Lemma price_option_zero_volatility_witness :
  (1 <= 4)%Z /\ 0 <= 2 /\
  price_option (3 / 100) (1 / 10) 0 2 4 "European" (2 / 100) None 0
    false false true
  = Ok (exp (- (3 / 100) * 2) * Rmax (if true then 3 / 100 - 2 / 100
                                      else 2 / 100 - 3 / 100) 0).
Proof.
  split; [lia |]. split; [lra |].
  apply (price_option_zero_volatility (3 / 100) (1 / 10) 2 4 "European" (2 / 100)
           None 0 true); [lia | lra].
Defined.

(** X9: with Bermudan exercise and no barrier the price is never below the
    value of exercising at once, [max(+-(r0 - strike), 0)] (for [N >= 1] and
    [T >= 0]). *)
Theorem bermudan_price_ge_intrinsic
    (r0 a sigma T : R) (N : Z) (option_type : string) (strike : R)
    (barrier_type : option string) (barrier : R) (is_call : bool) :
  (1 <= N)%Z -> 0 <= T ->
  exists price,
    price_option r0 a sigma T N option_type strike barrier_type barrier
      false true is_call = Ok price /\
    Rmax (if is_call then r0 - strike else strike - r0) 0 <= price.
Proof.
  intros HN _. eexists. split; [now apply price_option_value |].
  destruct (Z.to_nat N) as [| k] eqn:Hk; [lia |].
  cbn [lattice_value]. unfold node_value. cbn [knock]. rewrite rate_root.
  unfold intrinsic_value. apply Rmax_r.
Qed.

Lemma bermudan_price_ge_intrinsic_witness :
  (1 <= 2)%Z /\ 0 <= 1 /\
  exists price,
    price_option (3 / 100) (1 / 10) (1 / 100) 1 2 "Bermudan" (5 / 100) None 0
      false true false = Ok price /\
    Rmax (if false then 3 / 100 - 5 / 100 else 5 / 100 - 3 / 100) 0 <= price.
Proof.
  split; [lia |]. split; [lra |].
  apply (bermudan_price_ge_intrinsic (3 / 100) (1 / 10) (1 / 100) 1 2 "Bermudan"
           (5 / 100) None 0 false); [lia | lra].
Defined.

(** X10: [get_rate_data] never raises, whatever the data feed does and
    whatever the underlying is; when the feed raises, or returns an empty
    frame, the rate for "US LIBOR" is the default [0.025] with the
    retrieval-failed disclaimer. *)
Theorem get_rate_data_never_raises
    (feed : result (list (string * R))) (underlying : string) (e : exception) :
  (exists rate disclaimer, get_rate_data feed underlying = Ok (rate, disclaimer)) /\
  get_rate_data (Raise e) "US LIBOR"
  = Ok (0.025, "Data retrieval failed, using default rate"%string) /\
  get_rate_data (Ok []) "US LIBOR"
  = Ok (0.025, "Data retrieval failed, using default rate"%string).
Proof.
  split; [| split; reflexivity].
  unfold get_rate_data.
  destruct (String.eqb underlying "US LIBOR"); [| destruct (String.eqb _ _); eauto].
  destruct feed as [data | e']; cbn [bind]; [| eauto].
  destruct (getitem data (-1)) as [[date v] | e']; cbn [bind]; eauto.
Qed.

End HullWhiteMore.

(** ** Further properties of the Monte Carlo pricer *)

Section MonteCarloMore.
Import Py MonteCarlo.

Lemma gbm_step_neg (dt r sigma y z : R) :
  y * exp (dt * (r - 0.5 * sigma ^ 2) - sigma * sqrt dt * z)
  = gbm_step dt r sigma y (- z).
Proof. unfold gbm_step. do 2 f_equal. ring. Qed.

Lemma mirror_spec (c j : nat) :
  (j < c)%nat ->
  (j = O /\ mirror c j = O) \/ ((0 < j)%nat /\ mirror c j = (c - j)%nat).
Proof. destruct j; cbn [mirror]; intros; [left | right]; split; lia || reflexivity. Qed.

(** One pass of the inner loop, in closed form: the column [-j] holds the
    path along the negated draws of the pass and, when it is another column,
    the column [j] holds the path along the draws themselves. *)
Lemma anti_column_closed (dt r sigma x0 : R) (n c j : nat) (m : matrix) (g : rng) :
  shape m (S n) c -> (j < c)%nat ->
  (forall j', (j' < c)%nat -> cell m 0 j' = Some x0) ->
  exists m',
    for_each (range (Z.of_nat n)) (fun i '(paths, g) =>
        let '(random, g) := normal g in
        do x <- getitem2 paths i (Z.of_nat j) ;;
        do paths <- setitem2 paths (i + 1) (Z.of_nat j)
          (x * exp (dt * (r - 0.5 * sigma ^ 2) + sigma * sqrt dt * random)) ;;
        do y <- getitem2 paths i (- Z.of_nat j) ;;
        do paths <- setitem2 paths (i + 1) (- Z.of_nat j)
          (y * exp (dt * (r - 0.5 * sigma ^ 2) - sigma * sqrt dt * random)) ;;
        Ok (paths, g)) (m, g)
    = Ok (m', advance g n) /\
    shape m' (S n) c /\
    (forall i, (i <= n)%nat ->
       cell m' i (mirror c j)
       = Some (gbm x0 dt r sigma (fun k => - tape g (pos g + k)%nat) i)) /\
    (mirror c j <> j -> forall i, (i <= n)%nat ->
       cell m' i j = Some (gbm x0 dt r sigma (fun k => tape g (pos g + k)%nat) i)) /\
    (forall i j', j' <> j -> j' <> mirror c j -> cell m' i j' = cell m i j').
Proof.
  intros Hs Hj H0. pose proof (mirror_lt c j Hj) as Hmj.
  match goal with
  | |- context [for_each _ ?body _] =>
      destruct (for_range (matrix * rng)
        (fun k s => snd s = advance g k /\ shape (fst s) (S n) c /\
           (forall i, (i <= k)%nat ->
              cell (fst s) i (mirror c j)
              = Some (gbm x0 dt r sigma (fun q => - tape g (pos g + q)%nat) i)) /\
           (mirror c j <> j -> forall i, (i <= k)%nat ->
              cell (fst s) i j
              = Some (gbm x0 dt r sigma (fun q => tape g (pos g + q)%nat) i)) /\
           (forall i j', j' <> j -> j' <> mirror c j ->
              cell (fst s) i j' = cell m i j'))
        body (Z.of_nat n) (m, g)) as ([m' g'] & Hrun & Hg & Hs' & Hneg & Hpos & Hrest)
  end.
  - cbn [fst snd]. split; [now rewrite advance_0 |]. split; [exact Hs |].
    split; [| split].
    + intros i Hi. replace i with O by lia. now apply H0.
    + intros _ i Hi. replace i with O by lia. now apply H0.
    + reflexivity.
  - rewrite Nat2Z.id. intros k [mk gk] Hk (Hg & Hsk & Hneg & Hpos & Hrest).
    cbn [fst snd] in *. subst gk. rewrite normal_advance.
    destruct (cell_is_Some mk (S n) c k j Hsk) as (x & Hx); [lia | exact Hj |].
    rewrite (getitem2_cell mk k j x Hx). cbn [bind].
    replace (Z.of_nat k + 1)%Z with (Z.of_nat (S k)) by lia.
    rewrite (setitem2_update mk (S n) c (S k) j) by (exact Hsk || lia).
    cbn [bind].
    set (m1 := update mk (S k) j _).
    assert (Hs1 : shape m1 (S n) c) by (now apply shape_update).
    assert (Hy : cell m1 k (mirror c j)
                 = Some (gbm x0 dt r sigma (fun q => - tape g (pos g + q)%nat) k)).
    { unfold m1. rewrite cell_update_ne by (left; lia). now apply Hneg. }
    rewrite (getitem2_at m1 (S n) c k _ (mirror c j) _ Hs1 (index_mirror c j Hj) Hy).
    cbn [bind].
    rewrite (setitem2_at m1 (S n) c (S k) _ (mirror c j))
      by (exact Hs1 || lia || now apply index_mirror).
    cbn [bind]. eexists. split; [reflexivity |]. cbn [fst snd].
    split; [reflexivity |]. split; [now apply shape_update |].
    split; [| split].
    + intros i Hi. destruct (Nat.eq_dec i (S k)) as [-> | Hne].
      * rewrite (cell_update_eq m1 (S n) c) by (exact Hs1 || lia).
        now rewrite gbm_step_neg.
      * rewrite cell_update_ne by (left; congruence).
        unfold m1. rewrite cell_update_ne by (left; congruence). apply Hneg. lia.
    + intros Hne i Hi. rewrite cell_update_ne by (right; exact Hne).
      unfold m1. destruct (Nat.eq_dec i (S k)) as [-> | Hi'].
      * rewrite (cell_update_eq mk (S n) c) by (exact Hsk || lia).
        rewrite (Hpos Hne k (Nat.le_refl k)) in Hx. injection Hx as <-.
        reflexivity.
      * rewrite cell_update_ne by (left; congruence). apply Hpos; [exact Hne | lia].
    + intros i j' H1 H2. rewrite cell_update_ne by (right; congruence).
      unfold m1. rewrite cell_update_ne by (right; congruence). now apply Hrest.
  - rewrite Nat2Z.id in *. cbn [fst snd] in *. subst g'. exists m'.
    split; [exact Hrun |]. split; [exact Hs' |]. split; [exact Hneg |].
    split; [exact Hpos | exact Hrest].
Qed.

Ltac nat_tests :=
  repeat match goal with
         | |- context [(?a =? ?b)%nat] => destruct (Nat.eqb_spec a b)
         | |- context [(?a <? ?b)%nat] => destruct (Nat.ltb_spec a b)
         end.

Lemma anti_driver_after_mirror (c k : nat) :
  (k < c)%nat -> anti_driver_after c (S k) (mirror c k) = Some (k, true).
Proof.
  intros Hk. unfold anti_driver_after.
  destruct (mirror_spec c k Hk) as [[-> ->] | [Hk0 ->]].
  - cbn [mirror]. nat_tests; reflexivity || lia.
  - destruct (mirror_spec c (c - k)) as [[H1 ->] | [H1 ->]]; [lia | lia |].
    nat_tests; try lia; repeat f_equal; lia.
Qed.

Lemma anti_driver_after_own (c k : nat) :
  (k < c)%nat -> mirror c k <> k -> anti_driver_after c (S k) k = Some (k, false).
Proof.
  intros Hk Hne. unfold anti_driver_after.
  destruct (mirror_spec c k Hk) as [[-> H] | [Hk0 H]]; rewrite H in *; [lia |].
  nat_tests; try lia; reflexivity.
Qed.

Lemma anti_driver_after_other (c k col : nat) :
  (k < c)%nat -> (col < c)%nat -> col <> k -> col <> mirror c k ->
  anti_driver_after c (S k) col = anti_driver_after c k col.
Proof.
  intros Hk Hcol H1 H2. unfold anti_driver_after.
  destruct (mirror_spec c k Hk) as [[-> Hm] | [Hk0 Hm]]; rewrite Hm in H2;
    (destruct (mirror_spec c col Hcol) as [[-> ->] | [Hc0 ->]]);
    nat_tests; try lia; reflexivity.
Qed.

Lemma anti_driver_after_all (c col : nat) :
  (col < c)%nat -> anti_driver_after c c col = Some (anti_driver c col).
Proof.
  intros Hcol. unfold anti_driver_after, anti_driver.
  destruct (mirror_spec c col Hcol) as [[-> ->] | [Hc0 ->]];
    nat_tests; try lia; repeat f_equal; lia.
Qed.

Lemma anti_driver_after_0 (c col : nat) : anti_driver_after c 0 col = None.
Proof. unfold anti_driver_after. nat_tests; reflexivity || lia. Qed.

Lemma anti_cell_after_row0 (S dt r sigma : R) (g : rng) (n c k col : nat) :
  anti_cell_after S dt r sigma g n c k col 0 = S.
Proof.
  unfold anti_cell_after.
  destruct (anti_driver_after c k col) as [[p negated] |]; reflexivity.
Qed.

Lemma cell_initial_paths (S : R) (n c i j : nat) :
  (i <= n)%nat -> (j < c)%nat ->
  cell (initial_paths S n c) i j = Some (match i with O => S | Datatypes.S _ => 0 end).
Proof.
  intros Hi Hj. destruct i as [| i].
  - apply (cell_row0 _ S c); [apply initial_paths_row0 | exact Hj].
  - unfold cell, initial_paths. rewrite list_lookup_insert_ne by lia.
    rewrite lookup_replicate_2 by lia. now apply lookup_replicate_2.
Qed.

(** The whole loop of [paths_anti], in closed form. *)
Lemma anti_loop_closed (S dt r sigma : R) (n c : nat) (g : rng) :
  exists m',
    for_each (anti_indices (Z.of_nat c)) (fun j '(paths, g) =>
      for_each (range (Z.of_nat n)) (fun i '(paths, g) =>
          let '(random, g) := normal g in
          do x <- getitem2 paths i j ;;
          do paths <- setitem2 paths (i + 1) j
            (x * exp (dt * (r - 0.5 * sigma ^ 2) + sigma * sqrt dt * random)) ;;
          do y <- getitem2 paths i (- j) ;;
          do paths <- setitem2 paths (i + 1) (- j)
            (y * exp (dt * (r - 0.5 * sigma ^ 2) - sigma * sqrt dt * random)) ;;
          Ok (paths, g))
        (paths, g)) (initial_paths S n c, g)
    = Ok (m', advance g (c * n)) /\
    shape m' (Datatypes.S n) c /\
    forall col i, (col < c)%nat -> (i <= n)%nat ->
      cell m' i col
      = Some (gbm S dt r sigma
                (pass_draws g n (fst (anti_driver c col)) (snd (anti_driver c col))) i).
Proof.
  rewrite anti_indices_range.
  match goal with
  | |- context [for_each _ ?body _] =>
      destruct (for_range (matrix * rng)
        (fun k s => snd s = advance g (k * n) /\ shape (fst s) (Datatypes.S n) c /\
           forall col i, (col < c)%nat -> (i <= n)%nat ->
             cell (fst s) i col = Some (anti_cell_after S dt r sigma g n c k col i))
        body (Z.of_nat c) (initial_paths S n c, g))
        as ([m' g'] & Hrun & Hg & Hs' & Hcells)
  end.
  - cbn [fst snd]. split; [now rewrite advance_0 |].
    split; [apply shape_initial_paths |].
    intros col i Hcol Hi. rewrite cell_initial_paths by assumption.
    unfold anti_cell_after. now rewrite anti_driver_after_0.
  - rewrite Nat2Z.id. intros k [mk gk] Hk (Hg & Hsk & Hcells).
    cbn [fst snd] in *. subst gk.
    destruct (anti_column_closed dt r sigma S n c k mk (advance g (k * n)) Hsk Hk)
      as (m1 & -> & Hs1 & Hneg & Hpos & Hrest).
    { intros j' Hj'. rewrite Hcells by lia. now rewrite anti_cell_after_row0. }
    eexists. split; [reflexivity |]. cbn [fst snd].
    split; [rewrite advance_advance; f_equal; lia |].
    split; [exact Hs1 |].
    intros col i Hcol Hi. unfold anti_cell_after.
    destruct (Nat.eq_dec col (mirror c k)) as [-> | Hm].
    + rewrite Hneg by exact Hi. now rewrite anti_driver_after_mirror.
    + destruct (Nat.eq_dec col k) as [-> | Hown].
      * rewrite Hpos by (exact Hi || congruence).
        now rewrite anti_driver_after_own by (exact Hk || congruence).
      * rewrite Hrest by assumption. rewrite Hcells by assumption.
        unfold anti_cell_after. now rewrite anti_driver_after_other.
  - rewrite Nat2Z.id in *. cbn [fst snd] in *. subst g'. exists m'.
    split; [exact Hrun |]. split; [exact Hs' |].
    intros col i Hcol Hi. rewrite Hcells by assumption.
    unfold anti_cell_after. rewrite anti_driver_after_all by exact Hcol.
    now destruct (anti_driver c col).
Qed.

Lemma paths_anti_closed (option S r sigma T : R) (n c : nat) (g : rng) :
  (1 <= n)%nat ->
  exists paths last,
    paths_anti option S r sigma T (Z.of_nat n) (Z.of_nat c) g
    = Ok (paths, exp (- r * T) * np_mean (payoff_row option last), advance g (c * n)) /\
    getitem paths (-1) = Ok last /\
    shape paths (Datatypes.S n) c /\
    forall col i, (col < c)%nat -> (i <= n)%nat ->
      cell paths i col
      = Some (gbm S (T / IZR (Z.of_nat n)) r sigma
                (pass_draws g n (fst (anti_driver c col)) (snd (anti_driver c col))) i).
Proof.
  intros Hn. unfold paths_anti, truediv.
  replace (Z.of_nat n =? 0)%Z with false by (symmetry; apply Z.eqb_neq; lia).
  cbn [bind]. rewrite np_zeros_ok by lia. cbn [bind].
  replace (Z.to_nat (Z.of_nat n + 1)) with (Datatypes.S n) by lia.
  rewrite Nat2Z.id, fill_row_zeros. cbn [bind].
  destruct (anti_loop_closed S (T / IZR (Z.of_nat n)) r sigma n c g)
    as (paths & -> & Hs & Hcells).
  cbn [bind].
  destruct (shape_lookup paths (Datatypes.S n) c n Hs) as (lastrow & Hlast & _); [lia |].
  pose proof (getitem_last paths n lastrow (proj1 Hs) Hlast) as Hget.
  rewrite Hget. cbn [bind].
  exists paths, lastrow. split; [reflexivity |]. split; [exact Hget |].
  split; [exact Hs | exact Hcells].
Qed.

(** X11: the matrix that [paths_anti] returns, in closed form.  The
    simulator reads [Nsim * Nsteps] draws, a block of [Nsteps] for each path
    index [0 .. Nsim-1].  Column 0 follows the negated draws of block 0; a
    column [c] in the upper half ([2c > Nsim]) follows the draws of its own
    block [c]; a column [c] with [0 < 2c <= Nsim] follows the negated draws
    of block [Nsim - c], which is what [anti_driver] says.  The mean is the
    discounted average payoff of the last row. *)
Theorem paths_anti_closed_form
    (option S r sigma T : R) (Nsteps Nsim : Z) (g : rng) :
  (1 <= Nsteps)%Z -> (1 <= Nsim)%Z -> 0 <= T ->
  exists paths mean last,
    paths_anti option S r sigma T Nsteps Nsim g
    = Ok (paths, mean, advance g (Z.to_nat Nsim * Z.to_nat Nsteps)) /\
    getitem paths (-1) = Ok last /\
    mean = exp (- r * T) * np_mean (payoff_row option last) /\
    forall c i, (c < Z.to_nat Nsim)%nat -> (i <= Z.to_nat Nsteps)%nat ->
      cell paths i c
      = Some (gbm S (T / IZR Nsteps) r sigma
                (pass_draws g (Z.to_nat Nsteps)
                   (fst (anti_driver (Z.to_nat Nsim) c))
                   (snd (anti_driver (Z.to_nat Nsim) c))) i).
Proof.
  intros Hn Hsim _.
  destruct (Z_of_nat_complete Nsteps) as [n ->]; [lia |].
  destruct (Z_of_nat_complete Nsim) as [nsim ->]; [lia |].
  rewrite !Nat2Z.id.
  destruct (paths_anti_closed option S r sigma T n nsim g)
    as (paths & last & Hrun & Hget & _ & Hcells); [lia |].
  exists paths, (exp (- r * T) * np_mean (payoff_row option last)), last.
  split; [exact Hrun |]. split; [exact Hget |]. split; [reflexivity | exact Hcells].
Qed.

Lemma paths_anti_closed_form_witness :
  (1 <= 2)%Z /\ (1 <= 3)%Z /\ 0 <= 1 / 12 /\
  exists paths mean last,
    paths_anti 1 100 (3 / 100) (25 / 100) (1 / 12) 2 3
      {| tape := sample_draws; pos := 0 |}
    = Ok (paths, mean,
          advance {| tape := sample_draws; pos := 0 |} (Z.to_nat 3 * Z.to_nat 2)) /\
    getitem paths (-1) = Ok last /\
    mean = exp (- (3 / 100) * (1 / 12)) * np_mean (payoff_row 1 last) /\
    forall c i, (c < Z.to_nat 3)%nat -> (i <= Z.to_nat 2)%nat ->
      cell paths i c
      = Some (gbm 100 (1 / 12 / IZR 2) (3 / 100) (25 / 100)
                (pass_draws {| tape := sample_draws; pos := 0 |} (Z.to_nat 2)
                   (fst (anti_driver (Z.to_nat 3) c))
                   (snd (anti_driver (Z.to_nat 3) c))) i).
Proof.
  split; [lia |]. split; [lia |]. split; [lra |].
  apply (paths_anti_closed_form 1 100 (3 / 100) (25 / 100) (1 / 12) 2 3
           {| tape := sample_draws; pos := 0 |}); [lia | lia | lra].
Defined.

Lemma gbm_step_pair (dt r sigma x y z : R) :
  gbm_step dt r sigma x z * gbm_step dt r sigma y (- z)
  = x * y * exp (2 * (dt * (r - 0.5 * sigma ^ 2))).
Proof.
  unfold gbm_step.
  replace (2 * (dt * (r - 0.5 * sigma ^ 2)))
    with ((dt * (r - 0.5 * sigma ^ 2) + sigma * sqrt dt * z)
          + (dt * (r - 0.5 * sigma ^ 2) + sigma * sqrt dt * - z)) by ring.
  rewrite (exp_plus (dt * (r - 0.5 * sigma ^ 2) + sigma * sqrt dt * z)). ring.
Qed.

(** Two paths from the same start along opposite draws: their product does
    not depend on the draws. *)
Lemma gbm_pair_product (x0 dt r sigma : R) (z : nat -> R) (i : nat) :
  gbm x0 dt r sigma z i * gbm x0 dt r sigma (fun k => - z k) i
  = x0 ^ 2 * exp (2 * INR i * (dt * (r - 0.5 * sigma ^ 2))).
Proof.
  induction i as [| i IH].
  - cbn [gbm INR]. rewrite Rmult_0_r, Rmult_0_l, exp_0. ring.
  - cbn [gbm]. rewrite gbm_step_pair, IH, S_INR.
    replace (2 * (INR i + 1) * (dt * (r - 0.5 * sigma ^ 2)))
      with (2 * INR i * (dt * (r - 0.5 * sigma ^ 2))
            + 2 * (dt * (r - 0.5 * sigma ^ 2))) by ring.
    rewrite (exp_plus (2 * INR i * (dt * (r - 0.5 * sigma ^ 2)))). ring.
Qed.

(** X12: the returned matrix consists of antithetic pairs.  For a column
    [c] in the upper half ([Nsim < 2c], [c < Nsim]), the columns [c] and
    [Nsim - c] follow the same block of draws, the one of the pass [c], with
    opposite signs; at every step the product of the two prices is
    [S^2 * exp(2 * i * dt * (r - sigma^2/2))], whatever the draws. *)
Theorem paths_anti_mirrored_pairs
    (option S r sigma T : R) (Nsteps Nsim : Z) (c : nat) (g : rng) :
  (1 <= Nsteps)%Z -> 0 <= T ->
  (Z.to_nat Nsim < 2 * c)%nat -> (c < Z.to_nat Nsim)%nat ->
  exists paths mean g',
    paths_anti option S r sigma T Nsteps Nsim g = Ok (paths, mean, g') /\
    forall i, (i <= Z.to_nat Nsteps)%nat ->
      exists x y,
        cell paths i c = Some x /\
        cell paths i (Z.to_nat Nsim - c) = Some y /\
        x = gbm S (T / IZR Nsteps) r sigma (pass_draws g (Z.to_nat Nsteps) c false) i /\
        y = gbm S (T / IZR Nsteps) r sigma (pass_draws g (Z.to_nat Nsteps) c true) i /\
        x * y = S ^ 2 * exp (2 * INR i * (T / IZR Nsteps * (r - 0.5 * sigma ^ 2))).
Proof.
  intros Hn _ Hupper Hc.
  destruct (Z_of_nat_complete Nsteps) as [n ->]; [lia |].
  destruct (Z_of_nat_complete Nsim) as [nsim ->]; [lia |].
  rewrite !Nat2Z.id in *.
  destruct (paths_anti_closed option S r sigma T n nsim g)
    as (paths & last & Hrun & _ & _ & Hcells); [lia |].
  do 3 eexists. split; [exact Hrun |].
  intros i Hi. do 2 eexists.
  split; [apply Hcells; [exact Hc | exact Hi] |].
  split; [apply Hcells; [lia | exact Hi] |].
  assert (H1 : anti_driver nsim c = (c, false)).
  { unfold anti_driver. nat_tests; try lia; reflexivity. }
  assert (H2 : anti_driver nsim (nsim - c) = (c, true)).
  { unfold anti_driver. nat_tests; try lia. do 2 f_equal. lia. }
  rewrite H1, H2. cbn [fst snd].
  split; [reflexivity |]. split; [reflexivity |].
  exact (gbm_pair_product S _ r sigma (pass_draws g n c false) i).
Qed.

Lemma paths_anti_mirrored_pairs_witness :
  (1 <= 2)%Z /\ 0 <= 1 / 12 /\ (Z.to_nat 5 < 2 * 3)%nat /\ (3 < Z.to_nat 5)%nat /\
  exists paths mean g',
    paths_anti 1 100 (3 / 100) (25 / 100) (1 / 12) 2 5
      {| tape := sample_draws; pos := 0 |} = Ok (paths, mean, g') /\
    forall i, (i <= Z.to_nat 2)%nat ->
      exists x y,
        cell paths i 3 = Some x /\
        cell paths i (Z.to_nat 5 - 3) = Some y /\
        x = gbm 100 (1 / 12 / IZR 2) (3 / 100) (25 / 100)
              (pass_draws {| tape := sample_draws; pos := 0 |} (Z.to_nat 2) 3 false) i /\
        y = gbm 100 (1 / 12 / IZR 2) (3 / 100) (25 / 100)
              (pass_draws {| tape := sample_draws; pos := 0 |} (Z.to_nat 2) 3 true) i /\
        x * y = 100 ^ 2 * exp (2 * INR i * (1 / 12 / IZR 2
                                            * (3 / 100 - 0.5 * (25 / 100) ^ 2))).
Proof.
  split; [lia |]. split; [lra |]. split; [cbn; lia |]. split; [cbn; lia |].
  apply (paths_anti_mirrored_pairs 1 100 (3 / 100) (25 / 100) (1 / 12) 2 5 3
           {| tape := sample_draws; pos := 0 |}); [lia | lra | cbn; lia | cbn; lia].
Defined.

Lemma gbm_pos (x0 dt r sigma : R) (z : nat -> R) (i : nat) :
  0 < x0 -> 0 < gbm x0 dt r sigma z i.
Proof.
  intros Hx. induction i as [| i IH]; cbn [gbm]; [exact Hx |].
  unfold gbm_step. apply Rmult_lt_0_compat; [exact IH | apply exp_pos].
Qed.

Lemma gbm_ext (x0 dt r sigma : R) (z z' : nat -> R) (i : nat) :
  (forall k, z k = z' k) -> gbm x0 dt r sigma z i = gbm x0 dt r sigma z' i.
Proof.
  intros Hz. induction i as [| i IH]; cbn [gbm]; [reflexivity |].
  now rewrite IH, Hz.
Qed.

(** X13: for a positive initial price every entry of the path matrices of
    both simulators is positive. *)
Theorem path_matrices_positive
    (option S r sigma T : R) (Nsteps Nsim Nopti : Z) (g : rng) :
  0 < S -> 0 <= T -> (1 <= Nsteps)%Z -> (0 <= Nsim)%Z -> (0 <= Nopti)%Z ->
  exists paths_a mean_a g_a paths_c mean_c g_c,
    paths_anti option S r sigma T Nsteps Nsim g = Ok (paths_a, mean_a, g_a) /\
    paths_con option S r sigma T Nsteps Nsim Nopti g = Ok (paths_c, mean_c, g_c) /\
    forall i j, (i <= Z.to_nat Nsteps)%nat -> (j < Z.to_nat Nsim)%nat ->
      exists x y, cell paths_a i j = Some x /\ cell paths_c i j = Some y /\
                  0 < x /\ 0 < y.
Proof.
  intros HS _ Hn Hsim Hopti.
  destruct (Z_of_nat_complete Nsteps) as [n ->]; [lia |].
  destruct (Z_of_nat_complete Nsim) as [nsim ->]; [lia |].
  destruct (Z_of_nat_complete Nopti) as [nopti ->]; [lia |].
  rewrite !Nat2Z.id.
  destruct (paths_anti_closed option S r sigma T n nsim g)
    as (paths_a & last & Hanti & _ & _ & Hcells); [lia |].
  destruct (paths_con_run option S r sigma T n nsim nopti g) as [_ Hcon]; [lia |].
  do 6 eexists. split; [exact Hanti |]. split; [exact Hcon |].
  intros i j Hi Hj. do 2 eexists.
  split; [now apply Hcells |].
  split; [now apply cell_gbm_matrix |].
  split; now apply gbm_pos.
Qed.

Lemma path_matrices_positive_witness :
  0 < 100 /\ 0 <= 1 / 12 /\ (1 <= 2)%Z /\ (0 <= 3)%Z /\ (0 <= 2)%Z /\
  exists paths_a mean_a g_a paths_c mean_c g_c,
    paths_anti 1 100 (3 / 100) (25 / 100) (1 / 12) 2 3
      {| tape := sample_draws; pos := 0 |} = Ok (paths_a, mean_a, g_a) /\
    paths_con 1 100 (3 / 100) (25 / 100) (1 / 12) 2 3 2
      {| tape := sample_draws; pos := 0 |} = Ok (paths_c, mean_c, g_c) /\
    forall i j, (i <= Z.to_nat 2)%nat -> (j < Z.to_nat 3)%nat ->
      exists x y, cell paths_a i j = Some x /\ cell paths_c i j = Some y /\
                  0 < x /\ 0 < y.
Proof.
  split; [lra |]. split; [lra |]. split; [lia |]. split; [lia |]. split; [lia |].
  apply (path_matrices_positive 1 100 (3 / 100) (25 / 100) (1 / 12) 2 3 2
           {| tape := sample_draws; pos := 0 |}); lra || lia.
Defined.

(** X14: the matrix that [paths_con] returns, in closed form.  The
    simulator reads [(Nopti + Nsim) * Nsteps] draws; the first
    [Nopti * Nsteps] go to the auxiliary paths, and the pricing path [j]
    follows the block of [Nsteps] draws after them that starts at
    [(Nopti + j) * Nsteps]. *)
Theorem paths_con_closed_form
    (option S r sigma T : R) (Nsteps Nsim Nopti : Z) (g : rng) :
  (1 <= Nsteps)%Z -> (0 <= Nsim)%Z -> (0 <= Nopti)%Z -> 0 <= T ->
  exists paths mean,
    paths_con option S r sigma T Nsteps Nsim Nopti g
    = Ok (paths, mean,
          advance g ((Z.to_nat Nopti + Z.to_nat Nsim) * Z.to_nat Nsteps)) /\
    forall j i, (j < Z.to_nat Nsim)%nat -> (i <= Z.to_nat Nsteps)%nat ->
      cell paths i j
      = Some (gbm S (T / IZR Nsteps) r sigma
                (fun k => tape g (pos g + (Z.to_nat Nopti + j) * Z.to_nat Nsteps + k)%nat)
                i).
Proof.
  intros Hn Hsim Hopti _.
  destruct (Z_of_nat_complete Nsteps) as [n ->]; [lia |].
  destruct (Z_of_nat_complete Nsim) as [nsim ->]; [lia |].
  destruct (Z_of_nat_complete Nopti) as [nopti ->]; [lia |].
  rewrite !Nat2Z.id.
  destruct (paths_con_run option S r sigma T n nsim nopti g) as [_ Hcon]; [lia |].
  do 2 eexists. split.
  - replace ((nopti + nsim) * n)%nat with (nopti * n + nsim * n)%nat by lia.
    exact Hcon.
  - intros j i Hj Hi. rewrite cell_gbm_matrix by assumption. f_equal.
    apply gbm_ext. intros k. f_equal. lia.
Qed.

Lemma paths_con_closed_form_witness :
  (1 <= 2)%Z /\ (0 <= 3)%Z /\ (0 <= 2)%Z /\ 0 <= 1 / 12 /\
  exists paths mean,
    paths_con 1 100 (3 / 100) (25 / 100) (1 / 12) 2 3 2
      {| tape := sample_draws; pos := 0 |}
    = Ok (paths, mean,
          advance {| tape := sample_draws; pos := 0 |}
            ((Z.to_nat 2 + Z.to_nat 3) * Z.to_nat 2)) /\
    forall j i, (j < Z.to_nat 3)%nat -> (i <= Z.to_nat 2)%nat ->
      cell paths i j
      = Some (gbm 100 (1 / 12 / IZR 2) (3 / 100) (25 / 100)
                (fun k => tape {| tape := sample_draws; pos := 0 |}
                            (pos {| tape := sample_draws; pos := 0 |}
                             + (Z.to_nat 2 + j) * Z.to_nat 2 + k)%nat)
                i).
Proof.
  split; [lia |]. split; [lia |]. split; [lia |]. split; [lra |].
  apply (paths_con_closed_form 1 100 (3 / 100) (25 / 100) (1 / 12) 2 3 2
           {| tape := sample_draws; pos := 0 |}); lra || lia.
Defined.

(** X15: the adjustment of the control variate has no effect on the
    returned mean.  With at least two auxiliary paths and a non-zero
    closed-form variance (numpy answers nan otherwise), the coefficient
    computed is zero, and [paths_con] returns the plain average of the
    discounted payoffs of the pricing paths. *)
Theorem paths_con_mean_is_plain_average
    (option S r sigma T : R) (Nsteps Nsim Nopti : Z) (g : rng) :
  (1 <= Nsteps)%Z -> (1 <= Nsim)%Z -> (2 <= Nopti)%Z -> 0 <= T ->
  lognormal_var S r sigma T <> 0 ->
  exists paths mean g' last,
    paths_con option S r sigma T Nsteps Nsim Nopti g = Ok (paths, mean, g') /\
    getitem paths (-1) = Ok last /\
    mean = np_mean (map (fun S_T => Rmax (option * (S_T - K)) 0 * exp (- r * T)) last).
Proof.
  intros Hn Hsim Hopti _ _.
  destruct (Z_of_nat_complete Nsteps) as [n ->]; [lia |].
  destruct (Z_of_nat_complete Nsim) as [nsim ->]; [lia |].
  destruct (Z_of_nat_complete Nopti) as [nopti ->]; [lia |].
  destruct (paths_con_run option S r sigma T n nsim nopti g) as [_ Hcon]; [lia |].
  do 4 eexists. split; [exact Hcon |].
  split; [apply getitem_gbm_matrix_last |].
  f_equal. apply map_ext. intros S_T. lra.
Qed.

Lemma paths_con_mean_is_plain_average_witness :
  (1 <= 1)%Z /\ (1 <= 1)%Z /\ (2 <= 2)%Z /\ 0 <= 1 /\
  lognormal_var 110 (1 / 2) 1 1 <> 0 /\
  exists paths mean g' last,
    paths_con 1 110 (1 / 2) 1 1 1 1 2 {| tape := sample_draws; pos := 0 |}
    = Ok (paths, mean, g') /\
    getitem paths (-1) = Ok last /\
    mean = np_mean (map (fun S_T => Rmax (1 * (S_T - K)) 0 * exp (- (1 / 2) * 1)) last).
Proof.
  assert (Hv : lognormal_var 110 (1 / 2) 1 1 <> 0).
  { unfold lognormal_var.
    replace (2 * (1 / 2) * 1) with 1 by lra. replace (1 * 1 ^ 2) with 1 by lra.
    pose proof exp_1_gt_2. nra. }
  split; [lia |]. split; [lia |]. split; [lia |]. split; [lra |]. split; [exact Hv |].
  apply (paths_con_mean_is_plain_average 1 110 (1 / 2) 1 1 1 1 2
           {| tape := sample_draws; pos := 0 |}); lia || lra || exact Hv.
Defined.

(** X16: the simulators return nothing for bad dimensions: with
    [Nsteps = 0] both raise [ZeroDivisionError] at [dt = T / Nsteps]; with a
    negative number of paths (and [Nsteps >= 1]) both raise [ValueError]
    when the path matrix is allocated. *)
Theorem simulators_raise_on_bad_dimensions
    (option S r sigma T : R) (Nsteps Nsim Nopti : Z) (g : rng) :
  Nsteps = 0%Z \/ ((1 <= Nsteps)%Z /\ (Nsim < 0)%Z) ->
  paths_anti option S r sigma T Nsteps Nsim g
  = Raise (if (Nsteps =? 0)%Z then ZeroDivisionError else ValueError) /\
  paths_con option S r sigma T Nsteps Nsim Nopti g
  = Raise (if (Nsteps =? 0)%Z then ZeroDivisionError else ValueError).
Proof.
  intros [-> | [Hn Hsim]]; [split; reflexivity |].
  replace (Nsteps =? 0)%Z with false by (symmetry; apply Z.eqb_neq; lia).
  assert (Hz : forall rows, np_zeros rows Nsim = Raise ValueError).
  { intros rows. unfold np_zeros.
    replace (Nsim <? 0)%Z with true by (symmetry; apply Z.ltb_lt; lia).
    now rewrite orb_true_r. }
  split.
  - unfold paths_anti, truediv.
    replace (Nsteps =? 0)%Z with false by (symmetry; apply Z.eqb_neq; lia).
    cbn [bind]. now rewrite Hz.
  - unfold paths_con, truediv.
    replace (Nsteps =? 0)%Z with false by (symmetry; apply Z.eqb_neq; lia).
    cbn [bind]. destruct (Z_lt_ge_dec Nopti 0) as [Hopti | Hopti].
    + unfold np_zeros at 1.
      replace (Nopti <? 0)%Z with true by (symmetry; apply Z.ltb_lt; lia).
      now rewrite orb_true_r.
    + rewrite (np_zeros_ok (Nsteps + 1) Nopti) by lia. cbn [bind].
      replace (Z.to_nat (Nsteps + 1)) with (Datatypes.S (Z.to_nat Nsteps)) by lia.
      rewrite fill_row_zeros. cbn [bind]. now rewrite Hz.
Qed.

Lemma simulators_raise_on_bad_dimensions_witness :
  (2%Z = 0%Z \/ ((1 <= 2)%Z /\ (-1 < 0)%Z)) /\
  paths_anti 1 100 (3 / 100) (25 / 100) (1 / 12) 2 (-1)
    {| tape := sample_draws; pos := 0 |}
  = Raise (if (2 =? 0)%Z then ZeroDivisionError else ValueError) /\
  paths_con 1 100 (3 / 100) (25 / 100) (1 / 12) 2 (-1) 2
    {| tape := sample_draws; pos := 0 |}
  = Raise (if (2 =? 0)%Z then ZeroDivisionError else ValueError).
Proof.
  assert (H : 2%Z = 0%Z \/ ((1 <= 2)%Z /\ (-1 < 0)%Z)) by (right; lia).
  split; [exact H |].
  apply (simulators_raise_on_bad_dimensions 1 100 (3 / 100) (25 / 100) (1 / 12)
           2 (-1) 2 {| tape := sample_draws; pos := 0 |}).
  exact H.
Defined.

Lemma gbm_ext_lt (x0 dt r sigma : R) (z z' : nat -> R) (i : nat) :
  (forall k, (k < i)%nat -> z k = z' k) ->
  gbm x0 dt r sigma z i = gbm x0 dt r sigma z' i.
Proof.
  induction i as [| i IH]; intros Hz; cbn [gbm]; [reflexivity |].
  rewrite IH by (intros k Hk; apply Hz; lia).
  now rewrite Hz by lia.
Qed.

(** X17: the draws of the passes that are overwritten are wasted.  The
    passes for the path indices [p] with [0 < p] and [2p < Nsim] write
    columns that later passes write again, so two generators that agree on
    the blocks of the other passes (block 0 and the blocks [p] with
    [Nsim <= 2p]) give the same path matrix and the same mean. *)
Theorem paths_anti_ignores_overwritten_draws
    (option S r sigma T : R) (Nsteps Nsim : Z) (g1 g2 : rng) :
  (1 <= Nsteps)%Z -> (1 <= Nsim)%Z -> 0 <= T ->
  (forall p k, (p < Z.to_nat Nsim)%nat -> p = O \/ (Z.to_nat Nsim <= 2 * p)%nat ->
     (k < Z.to_nat Nsteps)%nat ->
     tape g1 (pos g1 + p * Z.to_nat Nsteps + k)%nat
     = tape g2 (pos g2 + p * Z.to_nat Nsteps + k)%nat) ->
  exists paths mean g1' g2',
    paths_anti option S r sigma T Nsteps Nsim g1 = Ok (paths, mean, g1') /\
    paths_anti option S r sigma T Nsteps Nsim g2 = Ok (paths, mean, g2').
Proof.
  intros Hn Hsim _.
  destruct (Z_of_nat_complete Nsteps) as [n ->]; [lia |].
  destruct (Z_of_nat_complete Nsim) as [nsim ->]; [lia |].
  rewrite !Nat2Z.id. intros Hsame.
  destruct (paths_anti_closed option S r sigma T n nsim g1)
    as (paths1 & last1 & Hrun1 & Hget1 & Hs1 & Hcells1); [lia |].
  destruct (paths_anti_closed option S r sigma T n nsim g2)
    as (paths2 & last2 & Hrun2 & Hget2 & Hs2 & Hcells2); [lia |].
  assert (Hpaths : paths1 = paths2).
  { apply (matrix_ext _ _ (Datatypes.S n) nsim Hs1 Hs2).
    intros i col Hi Hcol. rewrite Hcells1, Hcells2 by lia. f_equal.
    apply gbm_ext_lt. intros k Hk.
    assert (Hblock : (fst (anti_driver nsim col) < nsim)%nat /\
                     (fst (anti_driver nsim col) = O
                      \/ (nsim <= 2 * fst (anti_driver nsim col))%nat)).
    { unfold anti_driver. nat_tests; cbn [fst]; lia. }
    destruct Hblock as [Hp Hkeep]. unfold pass_draws.
    rewrite (Hsame _ k Hp Hkeep) by lia. reflexivity. }
  subst paths2. rewrite Hget1 in Hget2. injection Hget2 as <-.
  do 4 eexists. split; [exact Hrun1 | exact Hrun2].
Qed.

Lemma paths_anti_ignores_overwritten_draws_witness :
  (1 <= 2)%Z /\ (1 <= 3)%Z /\ 0 <= 1 / 12 /\
  (forall p k, (p < Z.to_nat 3)%nat -> p = O \/ (Z.to_nat 3 <= 2 * p)%nat ->
     (k < Z.to_nat 2)%nat ->
     tape {| tape := sample_draws; pos := 0 |}
       (pos {| tape := sample_draws; pos := 0 |} + p * Z.to_nat 2 + k)%nat
     = tape {| tape := other_draws; pos := 0 |}
         (pos {| tape := other_draws; pos := 0 |} + p * Z.to_nat 2 + k)%nat) /\
  exists paths mean g1' g2',
    paths_anti 1 100 (3 / 100) (25 / 100) (1 / 12) 2 3
      {| tape := sample_draws; pos := 0 |} = Ok (paths, mean, g1') /\
    paths_anti 1 100 (3 / 100) (25 / 100) (1 / 12) 2 3
      {| tape := other_draws; pos := 0 |} = Ok (paths, mean, g2').
Proof.
  assert (H : forall p k, (p < Z.to_nat 3)%nat -> p = O \/ (Z.to_nat 3 <= 2 * p)%nat ->
     (k < Z.to_nat 2)%nat ->
     tape {| tape := sample_draws; pos := 0 |}
       (pos {| tape := sample_draws; pos := 0 |} + p * Z.to_nat 2 + k)%nat
     = tape {| tape := other_draws; pos := 0 |}
         (pos {| tape := other_draws; pos := 0 |} + p * Z.to_nat 2 + k)%nat).
  { intros p k Hp Hkeep Hk. cbn in Hp, Hkeep, Hk.
    destruct p as [| [| [| p]]]; try lia;
      destruct k as [| [| k]]; try lia; reflexivity. }
  split; [lia |]. split; [lia |]. split; [lra |]. split; [exact H |].
  apply (paths_anti_ignores_overwritten_draws 1 100 (3 / 100) (25 / 100) (1 / 12) 2 3
           {| tape := sample_draws; pos := 0 |} {| tape := other_draws; pos := 0 |});
    [lia | lia | lra | exact H].
Defined.

End MonteCarloMore.
